(** * FontAwesome to emoji converter: a model of [replace_fontawesome.py]

    The script scans the [views] directory next to it for [.ejs] templates,
    replaces icon-font markup with emoji by regular-expression substitution
    and rewrites the changed files in place.

    Python [str] values are lists of Unicode code points, files on disk are
    lists of bytes, the file system is a finite map from paths to nodes, and
    every function of the script threads a [world] (file system and I/O
    trace) explicitly.  The functions of the [re] module the script calls
    ([findall], [sub]) are modelled as a backtracking matcher over the
    operators the script's three patterns are built from. *)

From Stdlib Require Import NArith Strings.String Strings.Ascii Strings.Byte DecimalString.
From Stdlib Require Import Sorted.
From stdpp Require Import base option list gmap fin_maps.

Local Open Scope N_scope.

(** ** Strings and bytes *)

(** A Python [str]: a sequence of code points. *)
Abbreviation str := (list N).

Module Utf8.

Definition is_cont (b : N) : bool := (0x80 <=? b) && (b <=? 0xBF).
Definition in_range (lo hi b : N) : bool := (lo <=? b) && (b <=? hi).
Definition low6 (b : N) : N := N.land b 0x3F.

(** Strict UTF-8 decoding (the codec rejects overlong forms, surrogates
    and values above U+10FFFF).  [None] is [UnicodeDecodeError]. *)
Fixpoint decodeN (bs : list N) : option str :=
  match bs with
  | [] => Some []
  | b0 :: r0 =>
    if b0 <? 0x80 then cons b0 <$> decodeN r0
    else if in_range 0xC2 0xDF b0 then
      match r0 with
      | b1 :: r1 =>
        if is_cont b1
        then cons (N.lor (N.shiftl (N.land b0 0x1F) 6) (low6 b1)) <$> decodeN r1
        else None
      | _ => None
      end
    else if in_range 0xE0 0xEF b0 then
      match r0 with
      | b1 :: b2 :: r2 =>
        if in_range (if b0 =? 0xE0 then 0xA0 else 0x80)
                    (if b0 =? 0xED then 0x9F else 0xBF) b1 && is_cont b2
        then cons (N.lor (N.shiftl (N.land b0 0x0F) 12)
                    (N.lor (N.shiftl (low6 b1) 6) (low6 b2))) <$> decodeN r2
        else None
      | _ => None
      end
    else if in_range 0xF0 0xF4 b0 then
      match r0 with
      | b1 :: b2 :: b3 :: r3 =>
        if in_range (if b0 =? 0xF0 then 0x90 else 0x80)
                    (if b0 =? 0xF4 then 0x8F else 0xBF) b1
           && is_cont b2 && is_cont b3
        then cons (N.lor (N.shiftl (N.land b0 0x07) 18)
                    (N.lor (N.shiftl (low6 b1) 12)
                      (N.lor (N.shiftl (low6 b2) 6) (low6 b3)))) <$> decodeN r3
        else None
      | _ => None
      end
    else None
  end.

Definition decode (bs : list byte) : option str := decodeN (Byte.to_N <$> bs).

Definition to_byte (n : N) : byte := default x00 (Byte.of_N n).

(** Encoding of one code point; [None] is [UnicodeEncodeError]
    (a surrogate, which the codec refuses). *)
Definition encode1 (c : N) : option (list byte) :=
  if c <? 0x80 then Some [to_byte c]
  else if c <? 0x800 then
    Some [to_byte (N.lor 0xC0 (N.shiftr c 6)); to_byte (N.lor 0x80 (low6 c))]
  else if in_range 0xD800 0xDFFF c then None
  else if c <? 0x10000 then
    Some [to_byte (N.lor 0xE0 (N.shiftr c 12));
          to_byte (N.lor 0x80 (low6 (N.shiftr c 6)));
          to_byte (N.lor 0x80 (low6 c))]
  else if c <? 0x110000 then
    Some [to_byte (N.lor 0xF0 (N.shiftr c 18));
          to_byte (N.lor 0x80 (low6 (N.shiftr c 12)));
          to_byte (N.lor 0x80 (low6 (N.shiftr c 6)));
          to_byte (N.lor 0x80 (low6 c))]
  else None.

Fixpoint encode (s : str) : option (list byte) :=
  match s with
  | [] => Some []
  | c :: r =>
    match encode1 c, encode r with
    | Some bs, Some rest => Some (bs ++ rest)
    | _, _ => None
    end
  end.

End Utf8.

(** A literal of the source text, as the [str] it denotes. *)
Definition u (s : string) : str :=
  default [] (Utf8.decode (list_byte_of_string s)).

(** The double quote character, U+0022. *)
Definition dq : str := [0x22].

(** Text-mode reading translates every line ending to a line feed
    ([open] with the default [newline=None]). *)
Fixpoint universal_newlines (s : str) : str :=
  match s with
  | [] => []
  | c :: r =>
    if c =? 0x0D then
      0x0A :: match r with
              | c' :: r' => if c' =? 0x0A then universal_newlines r'
                            else universal_newlines r
              | [] => []
              end
    else c :: universal_newlines r
  end.

(** ** The part of the [re] module the script uses *)

Module Re.

(** One-character matchers. *)
Inductive cset : Type :=
| Space                 (* \s *)
| OneOf (l : str)       (* [abc] *)
| NoneOf (l : str).     (* [^abc] *)

(** The pattern operators that occur in the script; every group is
    non-capturing and every repetition is greedy. *)
Inductive regex : Type :=
| Lit (s : str)          (* literal text, also [re.escape] of it *)
| Cls (c : cset)         (* one character of a set *)
| Star (c : cset)        (* c* *)
| Plus (c : cset)        (* c+ *)
| Opt (r : regex)        (* (?:r)? *)
| Seq (r1 r2 : regex).   (* r1 r2 *)

(** [\s] on a [str] pattern: the Unicode whitespace characters. *)
Definition is_space (c : N) : bool :=
  ((0x09 <=? c) && (c <=? 0x0D)) || ((0x1C <=? c) && (c <=? 0x20))
  || (c =? 0x85) || (c =? 0xA0) || (c =? 0x1680)
  || ((0x2000 <=? c) && (c <=? 0x200A))
  || (c =? 0x2028) || (c =? 0x2029) || (c =? 0x202F) || (c =? 0x205F)
  || (c =? 0x3000).

Definition mem (c : N) (l : str) : bool := existsb (N.eqb c) l.

Definition cin (cs : cset) (c : N) : bool :=
  match cs with
  | Space => is_space c
  | OneOf l => mem c l
  | NoneOf l => negb (mem c l)
  end.

(** [strip_prefix p s] is the rest of [s] after its prefix [p]. *)
Fixpoint strip_prefix (p s : str) : option str :=
  match p, s with
  | [], _ => Some s
  | a :: p', b :: s' => if a =? b then strip_prefix p' s' else None
  | _ :: _, [] => None
  end.

(** Greedy repetition: take as many characters as possible, then give
    them back one at a time until the continuation succeeds. *)
Fixpoint star (cs : cset) (s : str) (k : str -> option str) : option str :=
  match s with
  | c :: s' =>
    if cin cs c then
      match star cs s' k with
      | Some r => Some r
      | None => k s
      end
    else k s
  | [] => k []
  end.

(** The backtracking matcher, in continuation-passing style: [k] is
    what remains to be matched, and the result is the text left after
    the whole match. *)
Fixpoint mt (r : regex) (s : str) (k : str -> option str) : option str :=
  match r with
  | Lit l => match strip_prefix l s with Some s' => k s' | None => None end
  | Cls cs =>
    match s with
    | c :: s' => if cin cs c then k s' else None
    | [] => None
    end
  | Star cs => star cs s k
  | Plus cs =>
    match s with
    | c :: s' => if cin cs c then star cs s' k else None
    | [] => None
    end
  | Opt r' =>
    match mt r' s k with
    | Some x => Some x
    | None => k s
    end
  | Seq r1 r2 => mt r1 s (fun s' => mt r2 s' k)
  end.

(** Length of the match of [r] at the start of [s], if any. *)
Definition match_len (r : regex) (s : str) : option nat :=
  (fun rest => (length s - length rest)%nat) <$> mt r s Some.

(** The same, for a match that must not be empty (the scanner asks for
    one right after an empty match at the same position). *)
Definition match_len_nonempty (r : regex) (s : str) : option nat :=
  (fun rest => (length s - length rest)%nat)
    <$> mt r s (fun rest => if (length rest <? length s)%nat
                            then Some rest else None).

End Re.

Module Scan.
Import Re.

(** What a left-to-right scan of the subject makes of it: characters
    outside every match, and the matches. *)
Inductive piece : Type :=
| Keep (c : N)
| Match (m : str).

(** Non-overlapping matches, leftmost first.  [skip] counts the
    characters of the current match that are still to be passed over.
    An empty match is followed by a search for a non-empty one at the
    same position (the rule of Python 3.7 and later). *)
Fixpoint scan (r : regex) (s : str) (skip : nat) : list piece :=
  match skip with
  | S n =>
    match s with
    | [] => []
    | _ :: s' => scan r s' n
    end
  | O =>
    match s with
    | [] => match match_len r [] with Some _ => [Match []] | None => [] end
    | c :: s' =>
      match match_len r s with
      | Some (S n) => Match (take (S n) s) :: scan r s' n
      | Some O =>
        Match [] ::
          match match_len_nonempty r s with
          | Some (S n) => Match (take (S n) s) :: scan r s' n
          | _ => Keep c :: scan r s' 0
          end
      | None => Keep c :: scan r s' 0
      end
    end
  end.

Definition matched (p : piece) : option str :=
  match p with Match m => Some m | Keep _ => None end.

Definition replaced (repl : str) (p : piece) : str :=
  match p with Match _ => repl | Keep c => [c] end.

End Scan.

(** [re.findall(pattern, string)] for a pattern without capturing groups:
    the list of matched texts. *)
Definition findall (r : Re.regex) (s : str) : list str :=
  omap Scan.matched (Scan.scan r s 0).

(** [re.sub(pattern, repl, string)] for a replacement without backslashes:
    every match is replaced by [repl] as it is. *)
Definition sub (r : Re.regex) (repl s : str) : str :=
  concat (Scan.replaced repl <$> Scan.scan r s 0).

(** ** The mapping table *)

(** FontAwesome class to emoji, in the order of the dictionary literal
    (a [dict] iterates in insertion order). *)
Definition ICON_MAP : list (str * str) :=
  (fun kv : string * string => (u kv.1, u kv.2)) <$> [
    (* Navigation & Actions *)
    ("fa-arrow-left", "←");
    ("fa-arrow-right", "→");
    ("fa-arrow-up", "↑");
    ("fa-arrow-down", "↓");
    ("fa-chevron-left", "‹");
    ("fa-chevron-right", "›");
    ("fa-times", "✖️");
    ("fa-times-circle", "❌");
    ("fa-check", "✓");
    ("fa-check-circle", "✅");
    ("fa-plus", "➕");
    ("fa-minus", "➖");
    ("fa-minus-circle", "➖");
    (* Common UI *)
    ("fa-save", "💾");
    ("fa-edit", "✏️");
    ("fa-trash", "🗑️");
    ("fa-trash-alt", "🗑️");
    ("fa-search", "🔍");
    ("fa-filter", "🔍");
    ("fa-sync", "🔄");
    ("fa-sync-alt", "🔄");
    ("fa-refresh", "🔄");
    ("fa-redo", "🔄");
    ("fa-spinner", "⏳");
    ("fa-cog", "⚙️");
    ("fa-eye", "👁️");
    ("fa-download", "⬇️");
    ("fa-upload", "⬆️");
    ("fa-file-upload", "📤");
    ("fa-play", "▶️");
    ("fa-circle", "🔵");
    (* Info & Status *)
    ("fa-info-circle", "ℹ️");
    ("fa-question-circle", "❓");
    ("fa-exclamation-circle", "⚠️");
    ("fa-exclamation-triangle", "⚠️");
    ("fa-lightbulb", "💡");
    ("fa-bell", "🔔");
    (* Time & Calendar *)
    ("fa-clock", "⏱️");
    ("fa-calendar", "📅");
    ("fa-calendar-plus", "📅");
    ("fa-calendar-alt", "📅");
    ("fa-calendar-check", "✅");
    ("fa-history", "📜");
    ("fa-stopwatch", "⏱️");
    (* Communication *)
    ("fa-envelope", "✉️");
    ("fa-phone", "📞");
    ("fa-comments", "💬");
    ("fa-comment", "💬");
    ("fa-paper-plane", "📤");
    ("fa-reply", "↩️");
    ("fa-inbox", "📥");
    (* People & Users *)
    ("fa-user", "👤");
    ("fa-users", "👥");
    ("fa-user-circle", "👤");
    ("fa-user-check", "✅");
    (* Business & Office *)
    ("fa-building", "🏢");
    ("fa-briefcase", "💼");
    ("fa-handshake", "🤝");
    ("fa-folder", "📁");
    ("fa-folder-open", "📂");
    ("fa-folder-plus", "📁");
    ("fa-file-alt", "📄");
    ("fa-file-contract", "📋");
    (* Tech & Development *)
    ("fa-robot", "🤖");
    ("fa-laptop-code", "💻");
    ("fa-database", "💾");
    ("fa-server", "🖥️");
    ("fa-terminal", "💻");
    ("fa-code", "💻");
    (* Security & Protection *)
    ("fa-shield-alt", "🛡️");
    ("fa-lock", "🔒");
    ("fa-key", "🔑");
    (* Content & Media *)
    ("fa-image", "🖼️");
    ("fa-music", "🎵");
    ("fa-microphone", "🎤");
    ("fa-video", "🎥");
    ("fa-newspaper", "📰");
    (* Location & Map *)
    ("fa-map-marker-alt", "📍");
    ("fa-map-signs", "🗺️");
    ("fa-globe", "🌍");
    (* Social Media *)
    ("fa-facebook", "📘");
    ("fa-instagram", "📷");
    ("fa-tiktok", "🎵");
    ("fa-linkedin", "💼");
    ("fa-youtube", "📺");
    ("fa-twitter", "🐦");
    ("fa-google", "🔍");
    ("fa-share-alt", "🔗");
    (* Other Common *)
    ("fa-list", "📋");
    ("fa-list-check", "✅");
    ("fa-chart-bar", "📊");
    ("fa-chart-line", "📈");
    ("fa-toggle-on", "🔛");
    ("fa-sitemap", "🗺️");
    ("fa-tag", "🏷️");
    ("fa-tags", "🏷️");
    ("fa-link", "🔗");
    ("fa-external-link-alt", "🔗");
    ("fa-bolt", "⚡");
    ("fa-mobile-alt", "📱");
    ("fa-rocket", "🚀");
    ("fa-magic", "✨");
    ("fa-star", "⭐");
    ("fa-broom", "🧹");
    ("fa-box-open", "📦");
    ("fa-undo", "↩️");
    ("fa-flask", "🧪");
    ("fa-vial", "🧪");
    ("fa-ban", "🚫");
    ("fa-sliders-h", "🎚️");
    ("fa-exchange-alt", "🔄");
    ("fa-plug", "🔌");
    ("fa-door-open", "🚪");
    ("fa-layer-group", "📚");
    ("fa-network-wired", "🌐");
    ("fa-signal", "📶");
    ("fa-hand-pointer", "👆");
    ("fa-ellipsis-h", "⋯");
    ("fa-sort", "⇅");
    ("fa-sort-numeric-down", "🔢");
    ("fa-archive", "📦");
    ("fa-guitar", "🎸");
    ("fa-home", "🏠");
    ("fa-sign-out-alt", "🚪");
    ("fa-circle-notch", "⏳");
    ("fa-satellite-dish", "📡");
    ("fa-book", "📖")
  ]%string.

(** ** The patterns *)

Section Patterns.
Import Re.
Local Infix "⋅" := Seq (at level 60, right associativity).

(** The patterns are quoted token by token, with blanks between the
    tokens and [\x22] standing for the double quote. *)

(** [style= \x22 [^\x22]* \x22] *)
Definition style_attr : regex :=
  Lit (u "style=") ⋅ Lit dq ⋅ Star (NoneOf dq) ⋅ Lit dq.

(** [\x22 \s* (?: style=\x22[^\x22]*\x22 )? \s* ></i> \s*], the common tail
    of both icon patterns, from the closing quote of the class attribute
    on. *)
Definition icon_tail : regex :=
  Lit dq ⋅ Star Space ⋅ Opt style_attr ⋅ Star Space ⋅ Lit (u "></i>") ⋅ Star Space.

(** Pattern 1:
    [<i \s+ class= \x22 fa [srb] \s+ ICON (?: \s+ [^\x22]* )?] and the
    tail, where ICON is [re.escape(fa_class)]. *)
Definition pattern1 (fa_class : str) : regex :=
  Lit (u "<i") ⋅ Plus Space ⋅ Lit (u "class=") ⋅ Lit dq
    ⋅ Lit (u "fa") ⋅ Cls (OneOf (u "srb")) ⋅ Plus Space ⋅ Lit fa_class
    ⋅ Opt (Plus Space ⋅ Star (NoneOf dq))
    ⋅ icon_tail.

(** Pattern 2:
    [<i \s+ class= \x22 [^\x22]* fa [srb] \s+ ICON [^\x22]*] and the
    tail. *)
Definition pattern2 (fa_class : str) : regex :=
  Lit (u "<i") ⋅ Plus Space ⋅ Lit (u "class=") ⋅ Lit dq
    ⋅ Star (NoneOf dq)
    ⋅ Lit (u "fa") ⋅ Cls (OneOf (u "srb")) ⋅ Plus Space ⋅ Lit fa_class
    ⋅ Star (NoneOf dq)
    ⋅ icon_tail.

(** The special case:
    [<i \s+ class= \x22 fas \s+ fa-spinner \s+ fa-spin \x22 [^>]* ></i>] *)
Definition spinner_pattern : regex :=
  Lit (u "<i") ⋅ Plus Space ⋅ Lit (u "class=") ⋅ Lit dq
    ⋅ Lit (u "fas") ⋅ Plus Space ⋅ Lit (u "fa-spinner") ⋅ Plus Space
    ⋅ Lit (u "fa-spin") ⋅ Lit dq
    ⋅ Star (NoneOf (u ">")) ⋅ Lit (u "></i>").
End Patterns.

(** The glyph of the special case, U+23F3. *)
Definition spinner_glyph : str := u "⏳".

(** ** The rewriting of one file's text *)

(** The two substitutions of one table entry: the body of the [for] loop
    of [replace_fontawesome_in_file], on the pair (content, changes). *)
Definition replace_icon (acc : str * nat) (entry : str * str) : str * nat :=
  let '(content, changes) := acc in
  let '(fa_class, emoji) := entry in
  let matches := findall (pattern1 fa_class) content in
  let '(content, changes) :=
    match matches with
    | [] => (content, changes)
    | _ => (sub (pattern1 fa_class) (emoji ++ u " ") content,
            (changes + length matches)%nat)
    end in
  let matches := findall (pattern2 fa_class) content in
  match matches with
  | [] => (content, changes)
  | _ => (sub (pattern2 fa_class) (emoji ++ u " ") content,
          (changes + length matches)%nat)
  end.

(** The whole loop over the table. *)
Definition replace_icons (content : str) : str * nat :=
  foldl replace_icon (content, 0%nat) ICON_MAP.

(** The loop followed by the special case: the new content and the number
    of changes counted. *)
Definition rewrite_content (original_content : str) : str * nat :=
  let '(content, changes) := replace_icons original_content in
  (sub spinner_pattern spinner_glyph content, changes).

(** ** Paths *)

(** An absolute POSIX path, as the list of its segments. *)
Abbreviation path := (list str).

(** [str(p)] *)
Definition path_str (p : path) : str :=
  match p with
  | [] => u "/"
  | _ => concat ((fun seg => u "/" ++ seg) <$> p)
  end.

Fixpoint starts_with (p s : str) : bool :=
  match p, s with
  | [], _ => true
  | a :: p', b :: s' => (a =? b) && starts_with p' s'
  | _ :: _, [] => false
  end.

(** [needle in hay] on [str]: substring search. *)
Fixpoint str_in (needle hay : str) : bool :=
  match hay with
  | [] => starts_with needle []
  | _ :: hay' => starts_with needle hay || str_in needle hay'
  end.

Definition ends_with (suffix s : str) : bool :=
  starts_with (reverse suffix) (reverse s).

(** [base] is a proper ancestor of [p]. *)
Fixpoint is_under (base p : path) : bool :=
  match base, p with
  | [], _ :: _ => true
  | b :: base', s :: p' => bool_decide (b = s) && is_under base' p'
  | _, _ => false
  end.

(** Order of two [str] by code points, and of two paths segment by
    segment: the order [sorted] puts [Path] objects in. *)
Fixpoint str_cmp (a b : str) : comparison :=
  match a, b with
  | [], [] => Eq
  | [], _ :: _ => Lt
  | _ :: _, [] => Gt
  | x :: a', y :: b' =>
    match x ?= y with
    | Eq => str_cmp a' b'
    | c => c
    end
  end.

Fixpoint path_cmp (p q : path) : comparison :=
  match p, q with
  | [], [] => Eq
  | [], _ :: _ => Lt
  | _ :: _, [] => Gt
  | x :: p', y :: q' =>
    match str_cmp x y with
    | Eq => path_cmp p' q'
    | c => c
    end
  end.

Fixpoint insert_sorted (p : path) (l : list path) : list path :=
  match l with
  | [] => [p]
  | q :: l' =>
    match path_cmp p q with
    | Gt => q :: insert_sorted p l'
    | _ => p :: l
    end
  end.

(** [sorted(paths)] *)
Definition sorted (l : list path) : list path := foldr insert_sorted [] l.

(** ** The world: file system and I/O trace *)

(** A regular file, a directory, or a regular writable file on a device
    that takes at most [room] bytes for it (a full disk, a quota, a failing
    device): opening such a file for writing succeeds and truncates it, and
    a write of more bytes fails once [room] bytes are written. *)
Inductive node : Type :=
| File (data : list byte) (readable writable : bool)
| Dir
| LimitedFile (data : list byte) (readable : bool) (room : nat).

Inductive open_mode : Type := ModeR | ModeW.

Inductive event : Type :=
| Stdout (line : str)                  (* a call of [print] *)
| Open (p : path) (mode : open_mode).  (* a call of [open] *)

Record world : Type := World {
  fs : gmap path node;
  trace : list event   (* oldest first *)
}.

Definition log (e : event) (w : world) : world :=
  World (fs w) (trace w ++ [e]).

Definition set_fs (m : gmap path node) (w : world) : world :=
  World m (trace w).

(** The exceptions the script can meet. *)
Inductive exn : Type :=
| FileNotFoundError (p : path)
| IsADirectoryError (p : path)
| PermissionError (p : path)
| UnicodeDecodeError
| UnicodeEncodeError
| ValueError
| OSError (p : path).

(** [open(p, 'r', encoding='utf-8')] followed by [f.read()]. *)
Definition read_text (p : path) (m : gmap path node) : exn + str :=
  match m !! p with
  | None => inl (FileNotFoundError p)
  | Some Dir => inl (IsADirectoryError p)
  | Some (File data readable _) =>
    if readable then
      match Utf8.decode data with
      | Some s => inr (universal_newlines s)
      | None => inl UnicodeDecodeError
      end
    else inl (PermissionError p)
  | Some (LimitedFile data readable _) =>
    if readable then
      match Utf8.decode data with
      | Some s => inr (universal_newlines s)
      | None => inl UnicodeDecodeError
      end
    else inl (PermissionError p)
  end.

(** [open(p, 'w', encoding='utf-8')] followed by [f.write(content)] and
    the closing of the file, on a POSIX system (no newline translation on
    output).  A failure to open leaves the file system as it was.  Opening
    truncates the file, so a failure after it loses the old data: a failure
    to encode leaves the file empty, and a device that takes only part of
    the bytes leaves that part and raises [OSError]. *)
Definition write_text (p : path) (content : str) (m : gmap path node)
  : exn * gmap path node + gmap path node :=
  match m !! p with
  | Some Dir => inl (IsADirectoryError p, m)
  | Some (File _ readable writable) =>
    if writable then
      match Utf8.encode content with
      | Some data => inr (<[p := File data readable true]> m)
      | None => inl (UnicodeEncodeError, <[p := File [] readable true]> m)
      end
    else inl (PermissionError p, m)
  | Some (LimitedFile _ readable room) =>
    match Utf8.encode content with
    | Some data =>
      if (length data <=? room)%nat
      then inr (<[p := LimitedFile data readable room]> m)
      else inl (OSError p, <[p := LimitedFile (take room data) readable room]> m)
    | None => inl (UnicodeEncodeError, <[p := LimitedFile [] readable room]> m)
    end
  | None =>
    match Utf8.encode content with
    | Some data => inr (<[p := File data true true]> m)
    | None => inl (UnicodeEncodeError, <[p := File [] true true]> m)
    end
  end.

(** [str(n)] for a natural number. *)
Definition str_of_nat (n : nat) : str :=
  u (NilEmpty.string_of_uint (Nat.to_uint n)).

(** [p.relative_to(base)]; [None] is the [ValueError] of a path that is
    not below [base]. *)
Fixpoint relative_to (p base : path) : option path :=
  match base, p with
  | [], _ => Some p
  | b :: base', s :: p' => if bool_decide (b = s) then relative_to p' base' else None
  | _ :: _, [] => None
  end.

(** [str] of a relative path. *)
Definition rel_str (p : path) : str :=
  match p with
  | [] => u "."
  | s :: p' => s ++ concat ((fun seg => u "/" ++ seg) <$> p')
  end.

(** [base.rglob('*.ejs')]: every entry below [base] whose name ends in
    [.ejs] (the file system is a snapshot keyed by full path). *)
Definition rglob_ejs (base : path) (m : gmap path node) : list path :=
  filter (fun p => is_under base p && ends_with (u ".ejs") (default [] (last p)))
         (map_to_list m).*1.

Section Program.

(** [str(e)], the message of an exception: text of the Python runtime,
    not of the script. *)
Variable exn_text : exn -> str.

(** The line printed by the [except] clause. *)
Definition error_line (file_path : path) (e : exn) : str :=
  u "❌ Error processing " ++ path_str file_path ++ u ": " ++ exn_text e.

(** Replace FontAwesome icons with emojis in a single file. *)
Definition replace_fontawesome_in_file (file_path : path) (w : world)
  : nat * world :=
  let w := log (Open file_path ModeR) w in
  match read_text file_path (fs w) with
  | inl e => (0%nat, log (Stdout (error_line file_path e)) w)
  | inr original_content =>
    let '(content, changes) := rewrite_content original_content in
    if bool_decide (content ≠ original_content) then
      let w := log (Open file_path ModeW) w in
      match write_text file_path content (fs w) with
      | inl (e, m) => (0%nat, log (Stdout (error_line file_path e)) (set_fs m w))
      | inr m => (changes, set_fs m w)
      end
    else (0%nat, w)
  end.

(** The counters of [main] and the world, while the loop runs. *)
Record loop_state : Type := LoopState {
  total_changes : nat;
  files_modified : nat;
  loop_world : world
}.

(** The [for] loop of [main]; [Some e] is an exception that leaves it,
    with the state reached by then. *)
Fixpoint process_files (script_dir : path) (files : list path)
    (st : loop_state) : option exn * loop_state :=
  match files with
  | [] => (None, st)
  | file_path :: rest =>
    match relative_to file_path script_dir with
    | None => (Some ValueError, st)
    | Some relative_path =>
      let '(changes, w) := replace_fontawesome_in_file file_path (loop_world st) in
      let st :=
        if (0 <? changes)%nat then
          LoopState (total_changes st + changes) (files_modified st + 1)
            (log (Stdout (u "✅ " ++ rel_str relative_path ++ u ": "
                         ++ str_of_nat changes ++ u " icons replaced")) w)
        else LoopState (total_changes st) (files_modified st) w in
      process_files script_dir rest st
    end
  end.

Definition rule : str := repeat 0x3D 50.   (* "=" * 50 *)
Definition nl : str := [0x0A].

(** The candidate files: [.ejs] entries below [base_dir] whose path does
    not contain [backup]. *)
Definition candidates (base_dir : path) (m : gmap path node) : list path :=
  filter (fun f => negb (str_in (u "backup") (path_str f))) (rglob_ejs base_dir m).

(** The lines printed after the loop. *)
Definition summary (files_modified total_changes : nat) : list event :=
  [ Stdout (nl ++ rule);
    Stdout (u "✨ Complete!");
    Stdout (u "📊 Files modified: " ++ str_of_nat files_modified);
    Stdout (u "🔄 Total icons replaced: " ++ str_of_nat total_changes);
    Stdout (nl ++ u "💡 Note: Dynamic icons (variables) need manual review!");
    Stdout (u "   Example: fa-<%= statusIcon %>") ].

Inductive outcome : Type :=
| Returned
| Raised (e : exn).

(** Main function to process all view files; [script_dir] is the
    directory of the script, [Path(__file__).parent]. *)
Definition main (script_dir : path) (w : world) : outcome * world :=
  let w := log (Stdout (u "🚀 FontAwesome to Emoji Converter")) w in
  let w := log (Stdout rule) w in
  let base_dir := script_dir ++ [u "views"] in
  match fs w !! base_dir with
  | None => (Returned, log (Stdout (u "❌ Views directory not found: " ++ path_str base_dir)) w)
  | Some _ =>
    let ejs_files := candidates base_dir (fs w) in
    let w := log (Stdout (u "📂 Found " ++ str_of_nat (length ejs_files)
                         ++ u " EJS files to process" ++ nl)) w in
    match process_files script_dir (sorted ejs_files) (LoopState 0 0 w) with
    | (Some e, st) => (Raised e, loop_world st)
    | (None, st) =>
      (Returned,
       World (fs (loop_world st))
             (trace (loop_world st)
              ++ summary (files_modified st) (total_changes st)))
    end
  end.

End Program.

(** ** Inputs used in the examples *)

(** An icon element with the class attribute [cls], the further attribute
    text [attrs] and no inner text. *)
Definition icon_element (cls attrs : str) : str :=
  u "<i class=" ++ dq ++ cls ++ dq ++ attrs ++ u "></i>".

(** The attribute text of [style=] with value [color:red], and of [id=]
    with value [x], each after one blank. *)
Definition style_red : str := u " style=" ++ dq ++ u "color:red" ++ dq.
Definition id_x : str := u " id=" ++ dq ++ u "x" ++ dq.

(** The opening tag of the spinner element up to the closing quote of its
    class attribute. *)
Definition spinner_open : str :=
  u "<i class=" ++ dq ++ u "fas fa-spinner fa-spin" ++ dq.

(** A script directory with a [views] directory that holds one writable
    template [a.ejs] of the given text. *)
Definition app_dir : path := [u "srv"; u "app"].
Definition views_dir : path := app_dir ++ [u "views"].
Definition a_ejs : path := views_dir ++ [u "a.ejs"].
Definition b_ejs : path := views_dir ++ [u "b.ejs"].

Definition bytes_of (s : str) : list byte := default [] (Utf8.encode s).

Definition one_file (text : str) (readable writable : bool) : world :=
  World (list_to_map [(app_dir, Dir); (views_dir, Dir);
                      (a_ejs, File (bytes_of text) readable writable)]) [].

(** A page without icon markup. *)
Definition plain_page : str := u "<h1>Concerts</h1>".

(** [a.ejs] is not valid UTF-8. *)
Definition undecodable_file : world :=
  World (list_to_map [(app_dir, Dir); (views_dir, Dir);
                      (a_ejs, File [xff] true true)]) [].

(** [a.ejs] is read-only, [b.ejs] is writable; both hold a trash icon. *)
Definition trash_icon : str := icon_element (u "fas fa-trash") [].

Definition read_only_first : world :=
  World (list_to_map [(app_dir, Dir); (views_dir, Dir);
                      (a_ejs, File (bytes_of trash_icon) true false);
                      (b_ejs, File (bytes_of trash_icon) true true)]) [].

(** A template below a [backup] directory, next to [a.ejs]. *)
Definition backup_z_ejs : path := views_dir ++ [u "backup"; u "z.ejs"].

Definition with_backup : world :=
  World (list_to_map [(app_dir, Dir); (views_dir, Dir);
                      (a_ejs, File (bytes_of trash_icon) true true);
                      (views_dir ++ [u "backup"], Dir);
                      (backup_z_ejs, File (bytes_of trash_icon) true true)]) [].

(** A script directory without [views]. *)
Definition no_views : world := World (list_to_map [(app_dir, Dir)]) [].

(** The first two lines [main] prints, and the line that announces the
    number of candidate files. *)
Definition banner : list event :=
  [Stdout (u "🚀 FontAwesome to Emoji Converter"); Stdout rule].

Definition found_line (n : nat) : event :=
  Stdout (u "📂 Found " ++ str_of_nat n ++ u " EJS files to process" ++ nl).

(** The world in which the loop of [main] starts. *)
Definition loop_start (script_dir : path) (w : world) : loop_state :=
  LoopState 0 0
    (World (fs w)
       (trace w ++ banner
        ++ [found_line (length (candidates (script_dir ++ [u "views"]) (fs w)))])).

(** The spinner element without further attributes, and with [id]. *)
Definition bare_spinner : str := icon_element (u "fas fa-spinner fa-spin") [].
Definition spinner_with_id : str := icon_element (u "fas fa-spinner fa-spin") id_x.

(** Icons whose identifier starts with another identifier of the table. *)
Definition calendar_check_icon : str := icon_element (u "fas fa-calendar-check") [].
Definition times_circle_icon : str := icon_element (u "fas fa-times-circle") [].
Definition users_icon : str := icon_element (u "fas fa-users") [].

(** The first entry of the table whose identifier [fa_class] starts with:
    the entry whose second pattern is the first to match an element of the
    single class [fa_class]. *)
Definition first_prefix_entry (fa_class : str) : option (str * str) :=
  find (fun entry : str * str => starts_with entry.1 fa_class) ICON_MAP.

(** The emoji of that entry. *)
Definition effective_emoji (entry : str * str) : str :=
  (default entry (first_prefix_entry entry.1)).2.

(** The three prefix tokens of the patterns. *)
Definition prefix_tokens : list str := [u "fas"; u "far"; u "fab"].

(** A message function for the examples. *)
Definition plain_text (e : exn) : str :=
  match e with
  | FileNotFoundError _ => u "No such file or directory"
  | IsADirectoryError _ => u "Is a directory"
  | PermissionError _ => u "Permission denied"
  | UnicodeDecodeError => u "'utf-8' codec can't decode"
  | UnicodeEncodeError => u "'utf-8' codec can't encode"
  | ValueError => u "is not in the subpath"
  | OSError _ => u "No space left on device"
  end.

(** No pattern of the script matches anywhere in [content]. *)
Definition no_pattern_matches (content : str) : Prop :=
  Forall (fun entry : str * str =>
            findall (pattern1 entry.1) content = []
            ∧ findall (pattern2 entry.1) content = []) ICON_MAP
  ∧ findall spinner_pattern content = [].

(** [needle] occurs in [hay]. *)
Definition occurs_in (needle hay : str) : Prop :=
  ∃ before after, hay = before ++ needle ++ after.

(** ** Notions used in the further properties *)

(** [P] holds of some suffix of [s], the empty one included. *)
Fixpoint any_suffix (P : str -> bool) (s : str) : bool :=
  P s || match s with
         | [] => false
         | _ :: s' => any_suffix P s'
         end.

(** [s] starts with [<i] and a whitespace character, as every match of
    the three patterns does. *)
Definition icon_open_at (s : str) : bool :=
  match s with
  | a :: b :: c :: _ => (a =? 0x3C) && (b =? 0x69) && Re.is_space c
  | _ => false
  end.

(** The number of [<] characters of a text. *)
Definition count_lt (s : str) : nat := length (filter (fun c => c = 0x3C) s).

(** The paths opened for reading, in the order of the trace. *)
Definition reads (tr : list event) : list path :=
  omap (fun e => match e with
                 | Open p ModeR => Some p
                 | _ => None
                 end) tr.

(** Two states of one path that differ at most in the data of a regular
    file: absent in both, a directory in both, or a file with the same
    permissions (and the same room on its device) in both. *)
Definition same_shape (a b : option node) : Prop :=
  match a, b with
  | None, None => True
  | Some Dir, Some Dir => True
  | Some (File _ r w), Some (File _ r' w') => r = r' ∧ w = w'
  | Some (LimitedFile _ r n), Some (LimitedFile _ r' n') => r = r' ∧ n = n'
  | _, _ => False
  end.

(** Markup that holds [<i] but no icon element of the shape the script
    looks for. *)
Definition other_markup : str :=
  u "<img src=logo.png><input name=q><i>note</i> 💾 done".

(** A [views] directory without templates. *)
Definition no_templates : world :=
  World (list_to_map [(app_dir, Dir); (views_dir, Dir);
                      (views_dir ++ [u "readme.txt"],
                       File (bytes_of trash_icon) true true)]) [].

(** A script directory whose name contains [backup], with one template. *)
Definition old_backup_dir : path := [u "srv"; u "old_backup"].

Definition inside_backup : world :=
  World (list_to_map [(old_backup_dir, Dir);
                      (old_backup_dir ++ [u "views"], Dir);
                      (old_backup_dir ++ [u "views"; u "a.ejs"],
                       File (bytes_of trash_icon) true true)]) [].

(** Lexicographic comparison of two lists, the scheme of [str_cmp] and
    [path_cmp]. *)
Fixpoint lex_cmp {A} (cmp : A -> A -> comparison) (a b : list A) : comparison :=
  match a, b with
  | [], [] => Eq
  | [], _ :: _ => Lt
  | _ :: _, [] => Gt
  | x :: a', y :: b' =>
    match cmp x y with
    | Eq => lex_cmp cmp a' b'
    | c => c
    end
  end.

(** The order [sorted] establishes: [p] is not after [q]. *)
Definition path_le (p q : path) : Prop := path_cmp p q ≠ Gt.

(** Every match of [r] is non-empty and starts with [<]. *)
Definition starts_with_lt (r : Re.regex) : Prop :=
  ∀ t n, Re.match_len r t = Some n → (0 < n)%nat ∧ ∃ t', t = 0x3C :: t'.

(** A Unicode scalar value: a code point that is not a surrogate. *)
Definition is_scalar (c : N) : Prop := c < 0xD800 ∨ (0xE000 ≤ c ∧ c < 0x110000).

(** A character of a text as [read_text] returns it: a scalar value other
    than the carriage return. *)
Definition clean (c : N) : Prop := is_scalar c ∧ c ≠ 0x0D.

(** ** The words a pattern denotes *)

(** The texts [r] stands for, whatever the order in which the matcher
    tries them. *)
Fixpoint lang (r : Re.regex) (w : str) : Prop :=
  match r with
  | Re.Lit l => w = l
  | Re.Cls cs => ∃ c, w = [c] ∧ Re.cin cs c = true
  | Re.Star cs => Forall (fun c => Re.cin cs c = true) w
  | Re.Plus cs => w ≠ [] ∧ Forall (fun c => Re.cin cs c = true) w
  | Re.Opt r' => w = [] ∨ lang r' w
  | Re.Seq r1 r2 => ∃ w1 w2, w = w1 ++ w2 ∧ lang r1 w1 ∧ lang r2 w2
  end.

(** A number of [<] characters that every text of [r] holds. *)
Fixpoint min_lt (r : Re.regex) : nat :=
  match r with
  | Re.Lit l => count_lt l
  | Re.Seq r1 r2 => (min_lt r1 + min_lt r2)%nat
  | _ => 0%nat
  end.

(** The part of the subject a piece of the scan stands for. *)
Definition piece_source (p : Scan.piece) : str :=
  match p with
  | Scan.Keep c => [c]
  | Scan.Match m => m
  end.

(** Every match of [r] holds at least two [<] characters. *)
Definition two_lt (r : Re.regex) : Prop :=
  ∀ t n, Re.match_len r t = Some n → (2 ≤ count_lt (take n t))%nat.

(** [a.ejs] holds a trash icon on a device that takes 3 bytes for it. *)
Definition on_full_device : world :=
  World (list_to_map [(app_dir, Dir); (views_dir, Dir);
                      (a_ejs, LimitedFile (bytes_of trash_icon) true 3)]) [].

(** A template in a directory whose name contains [backup]. *)
Definition backups_2024_ejs : path := views_dir ++ [u "backups_2024"; u "a.ejs"].

(** The spinner element with [id], inside a paragraph. *)
Definition spinner_in_paragraph : str := u "<p>" ++ spinner_with_id ++ u "</p>".

(** * Properties *)

(** ** The table *)

(** The identifiers of the table are pairwise distinct, and every entry
    has a non-empty identifier and a non-empty emoji. *)
Lemma ICON_MAP_keys_unique : NoDup ICON_MAP.*1.
Proof. apply (bool_decide_unpack _). vm_compute. exact I. Qed.

Lemma ICON_MAP_entries_nonempty :
  length ICON_MAP = 127%nat
  ∧ Forall (fun entry : str * str => entry.1 ≠ [] ∧ entry.2 ≠ []) ICON_MAP.
Proof.
  split; [reflexivity|]. apply (bool_decide_unpack _). vm_compute. exact I.
Qed.

(** ** The scanner *)

(** Empty matches: [re.sub('x*', '-', 'abxd')] is ['-a-b--d-']. *)
Example sub_empty_matches :
  sub (Re.Star (Re.OneOf (u "x"))) (u "-") (u "abxd") = u "-a-b--d-"
  ∧ findall (Re.Star (Re.OneOf (u "x"))) (u "abxd") = [[]; []; u "x"; []; []].
Proof. split; vm_compute; reflexivity. Qed.

Lemma scan_nothing_found r s :
  findall r s = [] → Scan.scan r s 0 = Scan.Keep <$> s.
Proof.
  unfold findall. induction s as [|c s IH]; simpl.
  - destruct (Re.match_len r []); [discriminate | done].
  - destruct (Re.match_len r (c :: s)) as [[|n]|]; simpl; try discriminate.
    intros H. by rewrite IH.
Qed.

Lemma sub_nothing_found r repl s : findall r s = [] → sub r repl s = s.
Proof.
  intros H. unfold sub. rewrite (scan_nothing_found _ _ H).
  clear H. induction s as [|c s IH]; csimpl; [done | by rewrite IH].
Qed.

(** ** The rewriting of a text *)

Lemma replace_icon_nothing_found content changes entry :
  findall (pattern1 entry.1) content = [] →
  findall (pattern2 entry.1) content = [] →
  replace_icon (content, changes) entry = (content, changes).
Proof.
  destruct entry as [fa_class emoji]; simpl. intros H1 H2.
  by rewrite H1, H2.
Qed.

Lemma foldl_replace_icon_nothing_found table content changes :
  Forall (fun entry : str * str =>
            findall (pattern1 entry.1) content = []
            ∧ findall (pattern2 entry.1) content = []) table →
  foldl replace_icon (content, changes) table = (content, changes).
Proof.
  induction 1 as [|entry table [H1 H2] _ IH]; [done|].
  cbn [foldl]. by rewrite replace_icon_nothing_found.
Qed.

Lemma replace_icons_nothing_found content :
  Forall (fun entry : str * str =>
            findall (pattern1 entry.1) content = []
            ∧ findall (pattern2 entry.1) content = []) ICON_MAP →
  replace_icons content = (content, 0%nat).
Proof. apply foldl_replace_icon_nothing_found. Qed.

Lemma rewrite_content_nothing_found content :
  no_pattern_matches content → rewrite_content content = (content, 0%nat).
Proof.
  intros [Hicons Hspin]. unfold rewrite_content.
  rewrite (replace_icons_nothing_found _ Hicons).
  by rewrite sub_nothing_found.
Qed.

(** ** Paths *)

Lemma starts_with_app needle rest : starts_with needle (needle ++ rest) = true.
Proof.
  induction needle as [|c needle IH]; [done|].
  cbn. by rewrite N.eqb_refl.
Qed.

Lemma str_in_occurs needle hay : occurs_in needle hay → str_in needle hay = true.
Proof.
  intros (before & after & ->).
  induction before as [|c before IH].
  - destruct needle as [|c needle]; [by destruct after|].
    cbn [app str_in]. change (c :: needle ++ after) with ((c :: needle) ++ after).
    by rewrite starts_with_app.
  - cbn [app str_in]. rewrite IH. apply orb_true_r.
Qed.

Lemma path_str_segment seg (p : path) : seg ∈ p → occurs_in seg (path_str p).
Proof.
  intros (l1 & l2 & ->)%list_elem_of_split.
  exists (concat ((fun s => u "/" ++ s) <$> l1) ++ u "/"),
         (concat ((fun s => u "/" ++ s) <$> l2)).
  unfold path_str. destruct l1 as [|s l1]; [reflexivity|].
  rewrite !fmap_app, !concat_app. cbn [fmap list_fmap concat].
  rewrite <- !(assoc_L (++)). reflexivity.
Qed.

Lemma relative_to_under script_dir name (p : path) :
  is_under (script_dir ++ [name]) p = true → is_Some (relative_to p script_dir).
Proof.
  revert p. induction script_dir as [|d script_dir IH]; intros p.
  { destruct p; by eexists. }
  destruct p as [|s p]; [done|]. cbn [app is_under relative_to].
  intros [Hd Hrest]%andb_prop. rewrite Hd. by apply IH.
Qed.

Lemma elem_of_insert_sorted q p l : q ∈ insert_sorted p l ↔ q = p ∨ q ∈ l.
Proof.
  induction l as [|x l IH]; cbn [insert_sorted].
  - by rewrite list_elem_of_singleton, elem_of_nil; intuition.
  - destruct (path_cmp p x); rewrite ?elem_of_cons, ?IH; intuition.
Qed.

Lemma elem_of_sorted q l : q ∈ sorted l ↔ q ∈ l.
Proof.
  unfold sorted. induction l as [|x l IH]; cbn [foldr]; [done|].
  rewrite elem_of_insert_sorted, elem_of_cons, IH. done.
Qed.

Lemma candidates_under base m (p : path) :
  p ∈ candidates base m → is_under base p = true.
Proof.
  unfold candidates, rglob_ejs.
  intros [_ [H _]%list_elem_of_filter]%list_elem_of_filter.
  by apply andb_prop_elim in H as [H%Is_true_eq_true _].
Qed.

Lemma candidates_no_backup base m (p : path) :
  p ∈ candidates base m → str_in (u "backup") (path_str p) = false.
Proof.
  unfold candidates. intros [H _]%list_elem_of_filter.
  by apply negb_prop_elim, Is_true_false_1 in H.
Qed.

(** ** One file *)

Lemma write_text_frame p content m :
  ∀ q, q ≠ p →
    match write_text p content m with
    | inl (_, m') => m' !! q = m !! q
    | inr m' => m' !! q = m !! q
    end.
Proof.
  intros q Hq. unfold write_text.
  destruct (m !! p) as [[data readable [|]| |data readable room]|];
    try destruct (Utf8.encode content); try destruct (_ <=? _)%nat;
    by rewrite ?lookup_insert_ne.
Qed.

(** Every [Open] event of an explicit list of events is on one path. *)
Ltac opens_only_here :=
  intros ? ?; rewrite ?elem_of_cons, elem_of_nil; intuition congruence.

(** What a call of [replace_fontawesome_in_file] does to the world: it adds
    events to the trace, opens no other path, and changes no other path. *)
Lemma replace_fontawesome_in_file_frame exn_text file_path w :
  ∃ new,
    trace (replace_fontawesome_in_file exn_text file_path w).2 = trace w ++ new
    ∧ (∀ p mode, Open p mode ∈ new → p = file_path)
    ∧ (∀ p, p ≠ file_path →
         fs (replace_fontawesome_in_file exn_text file_path w).2 !! p = fs w !! p).
Proof.
  unfold replace_fontawesome_in_file. cbn [log fs trace].
  destruct (read_text file_path (fs w)) as [e|original_content].
  { eexists [_; _]. cbn. rewrite <- (assoc_L (++)). split; [done|]. split; [|done].
    opens_only_here. }
  destruct (rewrite_content original_content) as [content changes].
  case_bool_decide.
  2:{ eexists [_]. cbn. split; [done|]. split; [|done].
      opens_only_here. }
  pose proof (write_text_frame file_path content (fs w)) as Hframe.
  destruct (write_text file_path content (fs w)) as [[e m]|m]; cbn.
  - eexists [_; _; _]. rewrite <- !(assoc_L (++)). split; [done|]. split; [|done].
    opens_only_here.
  - eexists [_; _]. rewrite <- !(assoc_L (++)). split; [done|]. split; [|done].
    opens_only_here.
Qed.

(** ** The loop over the files *)

Lemma process_files_frame exn_text script_dir files st :
  ∃ new,
    trace (loop_world (process_files exn_text script_dir files st).2)
      = trace (loop_world st) ++ new
    ∧ (∀ p mode, Open p mode ∈ new → p ∈ files)
    ∧ (∀ p, p ∉ files →
         fs (loop_world (process_files exn_text script_dir files st).2) !! p
           = fs (loop_world st) !! p).
Proof.
  revert st. induction files as [|file_path rest IH]; intros st; cbn [process_files].
  { exists []. rewrite (right_id_L [] (++)). split; [done|]. split; [|done].
    intros p mode H. by apply elem_of_nil in H. }
  destruct (relative_to file_path script_dir) as [relative_path|].
  2:{ exists []. rewrite (right_id_L [] (++)). split; [done|]. split; [|done].
      intros p mode H. by apply elem_of_nil in H. }
  pose proof (replace_fontawesome_in_file_frame exn_text file_path (loop_world st))
    as (new1 & Htrace & Hopen & Hfs).
  destruct (replace_fontawesome_in_file exn_text file_path (loop_world st))
    as [changes w1]. cbn [snd] in Htrace, Hfs.
  match goal with
  | |- context [process_files _ _ rest ?s] =>
      destruct (IH s) as (new2 & Htrace2 & Hopen2 & Hfs2);
      assert (∃ mid, trace (loop_world s) = trace w1 ++ mid
                     ∧ (∀ p mode, Open p mode ∉ mid)
                     ∧ fs (loop_world s) = fs w1) as (mid & Hmid & Hnone & Hsame)
  end.
  { destruct (0 <? changes)%nat; cbn.
    - eexists [_]. split; [done|]. split; [|done].
      intros p mode [H|H%elem_of_nil]%elem_of_cons; [discriminate | done].
    - exists []. rewrite (right_id_L [] (++)). split; [done|]. split; [|done].
      intros p mode H%elem_of_nil. done. }
  exists (new1 ++ mid ++ new2). rewrite Htrace2, Hmid, Htrace.
  rewrite <- !(assoc_L (++)). split; [done|]. split.
  - intros p mode [H|[H|H]%elem_of_app]%elem_of_app.
    + apply Hopen in H as ->. left.
    + by apply Hnone in H.
    + right. by eapply Hopen2.
  - intros p [Hne Hrest]%not_elem_of_cons.
    rewrite Hfs2, Hsame by done. by apply Hfs.
Qed.

Lemma process_files_returns exn_text script_dir files st :
  Forall (fun p => is_Some (relative_to p script_dir)) files →
  (process_files exn_text script_dir files st).1 = None.
Proof.
  intros H. revert st. induction H as [|file_path rest [rel Hrel] _ IH]; intros st;
    cbn [process_files]; [done|].
  rewrite Hrel. destruct (replace_fontawesome_in_file _ _ _). apply IH.
Qed.

Lemma sorted_candidates_relative script_dir m :
  Forall (fun p => is_Some (relative_to p script_dir))
         (sorted (candidates (script_dir ++ [u "views"]) m)).
Proof.
  apply Forall_forall. intros p Hp.
  apply (proj1 (elem_of_sorted _ _)) in Hp.
  eapply relative_to_under, candidates_under, Hp.
Qed.

(** ** Files without a match *)

(** C7: for a file in which no pattern of the script matches, the call
    returns 0, the file system is unchanged, and the only event is the
    opening of the file for reading: the file is not opened for writing. *)
Theorem no_match_no_write exn_text file_path w content :
  read_text file_path (fs w) = inr content →
  no_pattern_matches content →
  replace_fontawesome_in_file exn_text file_path w
    = (0%nat, World (fs w) (trace w ++ [Open file_path ModeR])).
Proof.
  intros Hread Hnone. unfold replace_fontawesome_in_file. cbn [log fs trace].
  rewrite Hread, (rewrite_content_nothing_found _ Hnone).
  by rewrite bool_decide_false by (intros H; by apply H).
Qed.

Lemma no_match_no_write_witness :
  read_text a_ejs (fs (one_file plain_page true true)) = inr plain_page
  ∧ no_pattern_matches plain_page
  ∧ replace_fontawesome_in_file plain_text a_ejs (one_file plain_page true true)
    = (0%nat, World (fs (one_file plain_page true true)) [Open a_ejs ModeR]).
Proof.
  assert (read_text a_ejs (fs (one_file plain_page true true)) = inr plain_page)
    as Hread by (vm_compute; reflexivity).
  assert (no_pattern_matches plain_page) as Hnone
    by (apply (bool_decide_unpack _); vm_compute; exact I).
  split; [exact Hread|]. split; [exact Hnone|].
  exact (no_match_no_write plain_text a_ejs _ plain_page Hread Hnone).
Defined.

(** ** Failures *)

Lemma error_line_path exn_text file_path e :
  occurs_in (path_str file_path) (error_line exn_text file_path e).
Proof. by exists (u "❌ Error processing "), (u ": " ++ exn_text e). Qed.

Lemma error_line_message exn_text file_path e :
  occurs_in (exn_text e) (error_line exn_text file_path e).
Proof.
  exists (u "❌ Error processing " ++ path_str file_path ++ u ": "), [].
  unfold error_line. by rewrite (right_id_L [] (++)), <- !(assoc_L (++)).
Qed.

(** C5: when reading or decoding the file fails with exception [e], the
    call prints one line that contains the path and the message of [e],
    returns 0 and leaves the file system as it was; the loop of [main] then
    goes on with the remaining files, its counters unchanged. *)
Theorem read_failure_is_caught exn_text script_dir file_path rest st e relative_path :
  read_text file_path (fs (loop_world st)) = inl e →
  relative_to file_path script_dir = Some relative_path →
  let w := loop_world st in
  let line := error_line exn_text file_path e in
  let w' := World (fs w) (trace w ++ [Open file_path ModeR; Stdout line]) in
  replace_fontawesome_in_file exn_text file_path w = (0%nat, w')
  ∧ occurs_in (path_str file_path) line
  ∧ occurs_in (exn_text e) line
  ∧ process_files exn_text script_dir (file_path :: rest) st
    = process_files exn_text script_dir rest
        (LoopState (total_changes st) (files_modified st) w').
Proof.
  intros Hread Hrel w line w'.
  assert (replace_fontawesome_in_file exn_text file_path w = (0%nat, w')) as Hcall.
  { subst w w' line. unfold replace_fontawesome_in_file. cbn [log fs trace].
    rewrite Hread. unfold log. cbn [fs trace].
    by rewrite <- (assoc_L (++)). }
  split; [exact Hcall|].
  split; [apply error_line_path|]. split; [apply error_line_message|].
  cbn [process_files]. rewrite Hrel. fold w. by rewrite Hcall.
Qed.

Lemma read_failure_is_caught_witness :
  read_text a_ejs (fs undecodable_file) = inl UnicodeDecodeError
  ∧ replace_fontawesome_in_file plain_text a_ejs undecodable_file
    = (0%nat, World (fs undecodable_file)
                [Open a_ejs ModeR;
                 Stdout (error_line plain_text a_ejs UnicodeDecodeError)]).
Proof.
  assert (read_text a_ejs (fs (loop_world (LoopState 0 0 undecodable_file)))
          = inl UnicodeDecodeError) as Hread by (vm_compute; reflexivity).
  assert (relative_to a_ejs app_dir = Some [u "views"; u "a.ejs"]) as Hrel
    by (vm_compute; reflexivity).
  split; [exact Hread|].
  exact (proj1 (read_failure_is_caught plain_text app_dir a_ejs []
                  (LoopState 0 0 undecodable_file) _ _ Hread Hrel)).
Defined.

(** C4, as the script behaves: a failure to write after a successful read
    is caught by the same handler as a failure to read.  The call prints
    the error line with the path and the message, returns 0, and the loop
    goes on with the remaining files. *)
Theorem write_failure_is_caught exn_text script_dir file_path rest st
    original_content content changes e m relative_path :
  read_text file_path (fs (loop_world st)) = inr original_content →
  rewrite_content original_content = (content, changes) →
  content ≠ original_content →
  write_text file_path content (fs (loop_world st)) = inl (e, m) →
  relative_to file_path script_dir = Some relative_path →
  let w := loop_world st in
  let line := error_line exn_text file_path e in
  let w' := World m (trace w ++ [Open file_path ModeR; Open file_path ModeW;
                                 Stdout line]) in
  replace_fontawesome_in_file exn_text file_path w = (0%nat, w')
  ∧ occurs_in (path_str file_path) line
  ∧ occurs_in (exn_text e) line
  ∧ process_files exn_text script_dir (file_path :: rest) st
    = process_files exn_text script_dir rest
        (LoopState (total_changes st) (files_modified st) w').
Proof.
  intros Hread Hrw Hne Hwrite Hrel w line w'.
  assert (replace_fontawesome_in_file exn_text file_path w = (0%nat, w')) as Hcall.
  { subst w w' line. unfold replace_fontawesome_in_file. cbn [log fs trace].
    rewrite Hread, Hrw, bool_decide_true by done. cbn [log fs trace].
    rewrite Hwrite. unfold set_fs, log. cbn [fs trace].
    by rewrite <- !(assoc_L (++)). }
  split; [exact Hcall|].
  split; [apply error_line_path|]. split; [apply error_line_message|].
  cbn [process_files]. rewrite Hrel. fold w. by rewrite Hcall.
Qed.

Lemma write_failure_is_caught_witness :
  replace_fontawesome_in_file plain_text a_ejs read_only_first
  = (0%nat,
     World (fs read_only_first)
       [Open a_ejs ModeR; Open a_ejs ModeW;
        Stdout (error_line plain_text a_ejs (PermissionError a_ejs))]).
Proof.
  assert (read_text a_ejs (fs (loop_world (LoopState 0 0 read_only_first)))
          = inr trash_icon) as Hread by (vm_compute; reflexivity).
  assert (rewrite_content trash_icon = (u "🗑️ ", 1%nat)) as Hrw
    by (vm_compute; reflexivity).
  assert (u "🗑️ " ≠ trash_icon) as Hne
    by (intros H; vm_compute in H; discriminate H).
  assert (write_text a_ejs (u "🗑️ ") (fs (loop_world (LoopState 0 0 read_only_first)))
          = inl (PermissionError a_ejs, fs read_only_first)) as Hwrite.
  { unfold write_text. cbn [loop_world].
    assert (fs read_only_first !! a_ejs
            = Some (File (bytes_of trash_icon) true false)) as ->
      by (vm_compute; reflexivity).
    reflexivity. }
  assert (relative_to a_ejs app_dir = Some [u "views"; u "a.ejs"]) as Hrel
    by (vm_compute; reflexivity).
  exact (proj1 (write_failure_is_caught plain_text app_dir a_ejs [b_ejs]
                  (LoopState 0 0 read_only_first) _ _ _ _ _ _
                  Hread Hrw Hne Hwrite Hrel)).
Defined.

(** C4, as the specification has it, fails: with a read-only [a.ejs] the
    read succeeds, the new text differs and the write is refused, yet the
    call returns the count 0 and [main] returns normally after it has
    processed [b.ejs] and printed the summary. *)
Lemma write_failure_does_not_halt :
  read_text a_ejs (fs read_only_first) = inr trash_icon
  ∧ (rewrite_content trash_icon).1 ≠ trash_icon
  ∧ write_text a_ejs (rewrite_content trash_icon).1 (fs read_only_first)
    = inl (PermissionError a_ejs, fs read_only_first)
  ∧ (replace_fontawesome_in_file plain_text a_ejs read_only_first).1 = 0%nat
  ∧ (main plain_text app_dir read_only_first).1 = Returned
  ∧ trace (main plain_text app_dir read_only_first).2
    = banner ++ [found_line 2;
                 Open a_ejs ModeR; Open a_ejs ModeW;
                 Stdout (error_line plain_text a_ejs (PermissionError a_ejs));
                 Open b_ejs ModeR; Open b_ejs ModeW;
                 Stdout (u "✅ views/b.ejs: 1 icons replaced")]
             ++ summary 1 1.
Proof.
  split; [vm_compute; reflexivity|].
  split; [intros H; vm_compute in H; discriminate H|].
  repeat split; vm_compute; reflexivity.
Qed.

(** ** The run *)

Lemma main_without_views exn_text script_dir w :
  fs w !! (script_dir ++ [u "views"]) = None →
  main exn_text script_dir w
  = (Returned,
     World (fs w)
       (trace w ++ banner
        ++ [Stdout (u "❌ Views directory not found: "
                   ++ path_str (script_dir ++ [u "views"]))])).
Proof.
  intros H. unfold main, log. cbn [fs trace]. rewrite H.
  by rewrite <- !(assoc_L (++)).
Qed.

Lemma main_with_views exn_text script_dir w :
  is_Some (fs w !! (script_dir ++ [u "views"])) →
  main exn_text script_dir w
  = (Returned,
     let st := (process_files exn_text script_dir
                  (sorted (candidates (script_dir ++ [u "views"]) (fs w)))
                  (loop_start script_dir w)).2 in
     World (fs (loop_world st))
       (trace (loop_world st) ++ summary (files_modified st) (total_changes st))).
Proof.
  intros [n H]. unfold main, log. cbn [fs trace]. rewrite H.
  pose proof (process_files_returns exn_text script_dir _ (loop_start script_dir w)
                (sorted_candidates_relative script_dir (fs w))) as Hret.
  unfold loop_start, banner, found_line in *. rewrite <- !(assoc_L (++)) in *.
  cbn [app] in *.
  destruct (process_files _ _ _ _) as [[e|] st]; [discriminate Hret | done].
Qed.

(** C6: without the [views] directory [main] prints its two heading
    lines and one message and returns; the file system is unchanged and no
    file is opened.  With it, [main] returns normally, whatever the files
    hold: after the heading and the line with the number of files come the
    events of the loop, and the last six lines printed are the summary,
    with the counters the loop ends with. *)
Theorem main_exit_behaviour exn_text script_dir w :
  (fs w !! (script_dir ++ [u "views"]) = None →
   main exn_text script_dir w
   = (Returned,
      World (fs w)
        (trace w
         ++ [Stdout (u "🚀 FontAwesome to Emoji Converter");
             Stdout (repeat 0x3D 50);
             Stdout (u "❌ Views directory not found: "
                     ++ path_str (script_dir ++ [u "views"]))])))
  ∧ (is_Some (fs w !! (script_dir ++ [u "views"])) →
     let files := candidates (script_dir ++ [u "views"]) (fs w) in
     let start :=
       World (fs w)
         (trace w
          ++ [Stdout (u "🚀 FontAwesome to Emoji Converter");
              Stdout (repeat 0x3D 50);
              Stdout (u "📂 Found " ++ str_of_nat (length files)
                      ++ u " EJS files to process" ++ [0x0A])]) in
     let st := (process_files exn_text script_dir (sorted files)
                  (LoopState 0 0 start)).2 in
     main exn_text script_dir w
     = (Returned,
        World (fs (loop_world st))
          (trace (loop_world st)
           ++ [Stdout (0x0A :: repeat 0x3D 50);
               Stdout (u "✨ Complete!");
               Stdout (u "📊 Files modified: " ++ str_of_nat (files_modified st));
               Stdout (u "🔄 Total icons replaced: "
                       ++ str_of_nat (total_changes st));
               Stdout (0x0A
                       :: u "💡 Note: Dynamic icons (variables) need manual review!");
               Stdout (u "   Example: fa-<%= statusIcon %>")]))).
Proof.
  split.
  - intros H. rewrite main_without_views by done. reflexivity.
  - intros H. rewrite main_with_views by done. reflexivity.
Qed.

Lemma main_exit_behaviour_witness :
  main plain_text app_dir no_views
  = (Returned,
     World (fs no_views)
       [Stdout (u "🚀 FontAwesome to Emoji Converter");
        Stdout (repeat 0x3D 50);
        Stdout (u "❌ Views directory not found: /srv/app/views")])
  ∧ trace (main plain_text app_dir read_only_first).2
    = [Stdout (u "🚀 FontAwesome to Emoji Converter");
       Stdout (repeat 0x3D 50);
       Stdout (u "📂 Found 2 EJS files to process" ++ [0x0A]);
       Open a_ejs ModeR; Open a_ejs ModeW;
       Stdout (error_line plain_text a_ejs (PermissionError a_ejs));
       Open b_ejs ModeR; Open b_ejs ModeW;
       Stdout (u "✅ views/b.ejs: 1 icons replaced");
       Stdout (0x0A :: repeat 0x3D 50);
       Stdout (u "✨ Complete!");
       Stdout (u "📊 Files modified: 1");
       Stdout (u "🔄 Total icons replaced: 1");
       Stdout (0x0A :: u "💡 Note: Dynamic icons (variables) need manual review!");
       Stdout (u "   Example: fa-<%= statusIcon %>")].
Proof.
  split.
  - apply (proj1 (main_exit_behaviour plain_text app_dir no_views)).
    vm_compute; reflexivity.
  - rewrite (proj2 (main_exit_behaviour plain_text app_dir read_only_first))
      by (eexists; vm_compute; reflexivity).
    vm_compute. reflexivity.
Defined.

Lemma backup_not_candidate base m (p : path) :
  u "backup" ∈ p → p ∉ candidates base m.
Proof.
  intros Hseg Hcand. apply candidates_no_backup in Hcand.
  by rewrite (str_in_occurs _ _ (path_str_segment _ _ Hseg)) in Hcand.
Qed.

(** C8: a path with a segment named [backup] is not among the candidate
    files; [main] leaves what the file system holds at that path as it
    was, and none of the events it adds to the trace opens that path. *)
Theorem backup_paths_untouched exn_text script_dir w (p : path) :
  u "backup" ∈ p →
  (p ∉ candidates (script_dir ++ [u "views"]) (fs w))
  ∧ fs (main exn_text script_dir w).2 !! p = fs w !! p
  ∧ ∃ new, trace (main exn_text script_dir w).2 = trace w ++ new
           ∧ ∀ mode, Open p mode ∉ new.
Proof.
  intros Hseg.
  pose proof (backup_not_candidate (script_dir ++ [u "views"]) (fs w) p Hseg) as Hnot.
  split; [exact Hnot|].
  destruct (fs w !! (script_dir ++ [u "views"])) as [n|] eqn:Hviews.
  - rewrite main_with_views by (by rewrite Hviews). cbn [snd fs trace].
    destruct (process_files_frame exn_text script_dir
                (sorted (candidates (script_dir ++ [u "views"]) (fs w)))
                (loop_start script_dir w)) as (new & Htrace & Hopen & Hfs).
    assert (p ∉ sorted (candidates (script_dir ++ [u "views"]) (fs w))) as Hp
      by (by rewrite elem_of_sorted).
    split; [by rewrite Hfs|].
    eexists. rewrite Htrace. cbn [loop_start loop_world trace].
    rewrite <- !(assoc_L (++)). split; [done|].
    intros mode. rewrite !elem_of_app. unfold banner, found_line, summary.
    rewrite !elem_of_cons, !elem_of_nil.
    intros [H|[H|[H|H]]]; try (intuition discriminate).
    by apply Hopen in H.
  - rewrite main_without_views by done. cbn [snd fs trace].
    split; [done|]. eexists. split; [done|].
    intros mode. rewrite !elem_of_app. unfold banner.
    rewrite !elem_of_cons, !elem_of_nil. intuition discriminate.
Qed.

Lemma backup_paths_untouched_witness :
  u "backup" ∈ backup_z_ejs
  ∧ (backup_z_ejs ∉ candidates views_dir (fs with_backup))
  ∧ fs (main plain_text app_dir with_backup).2 !! backup_z_ejs
    = fs with_backup !! backup_z_ejs.
Proof.
  assert (u "backup" ∈ backup_z_ejs) as Hseg
    by (apply (bool_decide_unpack _); vm_compute; exact I).
  split; [exact Hseg|].
  pose proof (backup_paths_untouched plain_text app_dir with_backup backup_z_ejs Hseg)
    as (Hnot & Hfs & _).
  split; [exact Hnot | exact Hfs].
Defined.

(** ** Single icon elements *)

(** The two examples of the specification. *)
Lemma trash_example : rewrite_content trash_icon = (u "🗑️ ", 1%nat).
Proof. vm_compute; reflexivity. Qed.

Lemma save_example :
  rewrite_content (icon_element (u "fas fa-save") style_red) = (u "💾 ", 1%nat).
Proof. vm_compute; reflexivity. Qed.

(** X13: what the script makes of an element whose class is one prefix
    token and one identifier of the table: the emoji of the first entry whose
    identifier the class identifier starts with, and a single space,
    counted once; a second run finds nothing. *)
Lemma narrow_form_table :
  Forall (fun entry : str * str =>
    Forall (fun token : str =>
      rewrite_content (icon_element (token ++ u " " ++ entry.1) [])
        = (effective_emoji entry ++ u " ", 1%nat)
      ∧ rewrite_content (effective_emoji entry ++ u " ")
        = (effective_emoji entry ++ u " ", 0%nat))
      prefix_tokens) ICON_MAP.
Proof. apply (bool_decide_unpack _). vm_compute. exact I. Qed.

(** The identifiers for which that entry carries another emoji than
    their own. *)
Lemma shadowed_identifiers :
  (filter (fun entry : str * str => effective_emoji entry ≠ entry.2) ICON_MAP).*1
  = [u "fa-times-circle"; u "fa-check-circle"; u "fa-calendar-check";
     u "fa-users"; u "fa-user-check"; u "fa-folder-open"; u "fa-list-check";
     u "fa-sort-numeric-down"; u "fa-circle-notch"].
Proof. vm_compute; reflexivity. Qed.

(** C1, at the input on which the script departs from it: the table
    maps [fa-times-circle] to the cross mark, but the element of class
    [fas fa-times-circle] is rewritten, with count 1, to the emoji of
    [fa-times], whose second pattern matches it first. *)
Theorem times_circle_gets_times_emoji :
  ICON_MAP !! 6%nat = Some (u "fa-times", u "✖️")
  ∧ ICON_MAP !! 7%nat = Some (u "fa-times-circle", u "❌")
  ∧ findall (pattern2 (u "fa-times")) times_circle_icon = [times_circle_icon]
  ∧ rewrite_content times_circle_icon = (u "✖️ ", 1%nat)
  ∧ u "✖️ " ≠ u "❌ ".
Proof.
  repeat split; try (vm_compute; reflexivity).
  intros H; vm_compute in H; discriminate H.
Qed.

(** C2, at an input on which the script departs from it: the element of
    class [fas fa-users] is rewritten, with count 1, to the emoji of
    [fa-user] and not to the one the table gives for [fa-users]; the
    second run counts 0 as claimed. *)
Theorem users_gets_user_emoji :
  ICON_MAP !! 51%nat = Some (u "fa-user", u "👤")
  ∧ ICON_MAP !! 52%nat = Some (u "fa-users", u "👥")
  ∧ rewrite_content users_icon = (u "👤 ", 1%nat)
  ∧ u "👤 " ≠ u "👥 "
  ∧ rewrite_content (u "👤 ") = (u "👤 ", 0%nat).
Proof.
  repeat split; try (vm_compute; reflexivity).
  intros H; vm_compute in H; discriminate H.
Qed.

(** C10: [fa-calendar] comes before [fa-calendar-check] in the table.  On
    the element of class [fas fa-calendar-check] nothing matches before the
    entry of [fa-calendar]; its first pattern does not match, its second
    pattern matches the whole element, and the substitution, counted at
    that entry, puts the calendar emoji and a space.  The result of the
    call is that text with count 1, not the check mark of the table. *)
Theorem calendar_check_gets_calendar_emoji :
  ICON_MAP !! 38%nat = Some (u "fa-calendar", u "📅")
  ∧ ICON_MAP !! 41%nat = Some (u "fa-calendar-check", u "✅")
  ∧ foldl replace_icon (calendar_check_icon, 0%nat) (take 38 ICON_MAP)
    = (calendar_check_icon, 0%nat)
  ∧ findall (pattern1 (u "fa-calendar")) calendar_check_icon = []
  ∧ findall (pattern2 (u "fa-calendar")) calendar_check_icon
    = [calendar_check_icon]
  ∧ replace_icon (calendar_check_icon, 0%nat) (u "fa-calendar", u "📅")
    = (u "📅 ", 1%nat)
  ∧ rewrite_content calendar_check_icon = (u "📅 ", 1%nat)
  ∧ u "📅 " ≠ u "✅ ".
Proof.
  repeat split; try (vm_compute; reflexivity).
  intros H; vm_compute in H; discriminate H.
Qed.

(** ** The spinner *)

(** C9: the spinner element with an [id] attribute is matched by no
    pattern of the table, only by the special case.  The text changes, so
    the file is opened for writing and holds the glyph afterwards, but the
    call returns 0: [main] prints no line for the file and reports 0 files
    modified. *)
Theorem spinner_with_id_written_count_zero exn_text :
  Forall (fun entry : str * str =>
            findall (pattern1 entry.1) spinner_with_id = []
            ∧ findall (pattern2 entry.1) spinner_with_id = []) ICON_MAP
  ∧ findall spinner_pattern spinner_with_id = [spinner_with_id]
  ∧ rewrite_content spinner_with_id = (spinner_glyph, 0%nat)
  ∧ spinner_glyph ≠ spinner_with_id
  ∧ (replace_fontawesome_in_file exn_text a_ejs
       (one_file spinner_with_id true true)).1 = 0%nat
  ∧ (main exn_text app_dir (one_file spinner_with_id true true)).1 = Returned
  ∧ fs (main exn_text app_dir (one_file spinner_with_id true true)).2 !! a_ejs
    = Some (File (bytes_of spinner_glyph) true true)
  ∧ fs (one_file spinner_with_id true true) !! a_ejs
    = Some (File (bytes_of spinner_with_id) true true)
  ∧ trace (main exn_text app_dir (one_file spinner_with_id true true)).2
    = banner ++ [found_line 1; Open a_ejs ModeR; Open a_ejs ModeW]
      ++ summary 0 0.
Proof.
  split; [apply (bool_decide_unpack _); vm_compute; exact I|].
  split; [vm_compute; reflexivity|].
  split; [vm_compute; reflexivity|].
  split; [intros H; vm_compute in H; discriminate H|].
  repeat split; vm_compute; reflexivity.
Qed.

(** C3, as the specification has it, fails on the bare spinner element:
    the first pattern of [fa-spinner] matches it, so the result is the
    glyph followed by a space, counted once, and the special case finds
    nothing left to replace. *)
Lemma bare_spinner_gets_trailing_space :
  findall (pattern1 (u "fa-spinner")) bare_spinner = [bare_spinner]
  ∧ replace_icons bare_spinner = (spinner_glyph ++ u " ", 1%nat)
  ∧ findall spinner_pattern (replace_icons bare_spinner).1 = []
  ∧ rewrite_content bare_spinner = (spinner_glyph ++ u " ", 1%nat)
  ∧ (rewrite_content bare_spinner).1 ≠ spinner_glyph.
Proof.
  repeat split; try (vm_compute; reflexivity).
  intros H; vm_compute in H; discriminate H.
Qed.

(** Literals of the source text, evaluated. *)
Ltac eval_literals :=
  repeat match goal with
         | |- context [u ?s] =>
             let v := eval vm_compute in (u s) in change (u s) with v
         end.

Lemma scan_skip r x rest : Scan.scan r (x ++ rest) (length x) = Scan.scan r rest 0.
Proof. induction x as [|c x IH]; [done | exact IH]. Qed.

Lemma sub_skip_unmatched r repl pre rest :
  Forall (fun c => ∀ s, Re.match_len r (c :: s) = None) pre →
  sub r repl (pre ++ rest) = pre ++ sub r repl rest.
Proof.
  unfold sub. induction 1 as [|c pre Hc _ IH]; [done|].
  cbn [app Scan.scan]. rewrite Hc. csimpl. by rewrite IH.
Qed.

Lemma sub_match_here r repl m rest :
  m ≠ [] → Re.match_len r (m ++ rest) = Some (length m) →
  sub r repl (m ++ rest) = repl ++ sub r repl rest.
Proof.
  unfold sub. destruct m as [|c m]; [done|]. intros _ Hm.
  cbn [app Scan.scan length] in *. rewrite Hm. csimpl.
  by rewrite scan_skip.
Qed.

Lemma star_greedy cs a rest k r :
  Forall (fun c => Re.cin cs c = true) a →
  Re.star cs rest k = Some r → Re.star cs (a ++ rest) k = Some r.
Proof.
  intros Ha Hrest. induction Ha as [|c a Hc _ IH]; [done|].
  cbn [app Re.star]. by rewrite Hc, IH.
Qed.

Lemma spinner_needs_lt c s : c ≠ 0x3C → Re.match_len spinner_pattern (c :: s) = None.
Proof.
  intros Hc. unfold Re.match_len, spinner_pattern. eval_literals.
  cbn [Re.mt Re.strip_prefix]. 
  destruct (60 =? c) eqn:E; [apply N.eqb_eq in E; congruence | done].
Qed.

Lemma spinner_matches a post :
  Forall (fun x => x ≠ 0x3E) a →
  Re.mt spinner_pattern (spinner_open ++ a ++ u "></i>" ++ post) Some = Some post.
Proof.
  intros Ha. unfold spinner_pattern, spinner_open, dq. eval_literals. cbn.
  apply star_greedy; [|reflexivity].
  eapply Forall_impl; [exact Ha|]. intros x Hx. cbn.
  destruct (x =? 62) eqn:E; [apply N.eqb_eq in E; congruence | done].
Qed.

Lemma spinner_match_len a post :
  Forall (fun x => x ≠ 0x3E) a →
  Re.match_len spinner_pattern ((spinner_open ++ a ++ u "></i>") ++ post)
  = Some (length (spinner_open ++ a ++ u "></i>")).
Proof.
  intros Ha. unfold Re.match_len.
  rewrite <- !(assoc_L (++)), spinner_matches by done. cbn [fmap option_fmap option_map].
  f_equal. rewrite !length_app. lia.
Qed.

(** * Further properties *)

(** ** The matcher consumes a prefix *)

Lemma strip_prefix_suffix l s s' : Re.strip_prefix l s = Some s' → s' `suffix_of` s.
Proof.
  revert s. induction l as [|a l IH]; intros s; cbn.
  - intros [= ->]. done.
  - destruct s as [|b s]; [done|]. destruct (a =? b); [|done].
    intros H. by apply suffix_cons_r, IH.
Qed.

Lemma star_suffix cs s k x :
  Re.star cs s k = Some x → ∃ s', s' `suffix_of` s ∧ k s' = Some x.
Proof.
  induction s as [|c s IH]; cbn.
  - intros H. by exists [].
  - destruct (Re.cin cs c); [|intros H; by exists (c :: s)].
    destruct (Re.star cs s k) as [y|] eqn:E.
    + intros [= ->]. destruct (IH eq_refl) as (s' & Hs & Hk).
      exists s'. split; [by apply suffix_cons_r | done].
    + intros H. by exists (c :: s).
Qed.

Lemma mt_suffix r s k x :
  Re.mt r s k = Some x → ∃ s', s' `suffix_of` s ∧ k s' = Some x.
Proof.
  revert s k x. induction r as [l|cs|cs|cs|r IH|r1 IH1 r2 IH2]; intros s k x; cbn.
  - destruct (Re.strip_prefix l s) as [s'|] eqn:E; [|done].
    intros H. exists s'. split; [by eapply strip_prefix_suffix | done].
  - destruct s as [|c s]; [done|]. destruct (Re.cin cs c); [|done].
    intros H. exists s. split; [by apply suffix_cons_r | done].
  - apply star_suffix.
  - destruct s as [|c s]; [done|]. destruct (Re.cin cs c); [|done].
    intros (s' & Hs & Hk)%star_suffix. exists s'.
    split; [by apply suffix_cons_r | done].
  - destruct (Re.mt r s k) as [y|] eqn:E.
    + intros [= ->]. by eapply IH.
    + intros H. by exists s.
  - intros (s1 & Hs1 & (s2 & Hs2 & Hk)%IH2)%IH1.
    exists s2. split; [by etrans | done].
Qed.

Lemma match_len_bound r s n : Re.match_len r s = Some n → (n ≤ length s)%nat.
Proof.
  unfold Re.match_len. destruct (Re.mt r s Some); [|done].
  intros [= <-]. lia.
Qed.

(** ** Where the patterns can match *)

Lemma needs_icon_open rest t k :
  icon_open_at t = false →
  Re.mt (Re.Seq (Re.Lit [0x3C; 0x69]) (Re.Seq (Re.Plus Re.Space) rest)) t k = None.
Proof.
  destruct t as [|a [|b [|c t]]]; cbn [icon_open_at Re.mt Re.strip_prefix].
  - done.
  - intros _. by destruct (60 =? a).
  - intros _. by destruct (60 =? a), (105 =? b).
  - rewrite (N.eqb_sym a), (N.eqb_sym b).
    destruct (60 =? a), (105 =? b); cbn; try done. by intros ->.
Qed.

Lemma pattern1_needs_icon_open fa_class t :
  icon_open_at t = false → Re.match_len (pattern1 fa_class) t = None.
Proof.
  intros H. unfold Re.match_len, pattern1. eval_literals.
  by rewrite needs_icon_open.
Qed.

Lemma pattern2_needs_icon_open fa_class t :
  icon_open_at t = false → Re.match_len (pattern2 fa_class) t = None.
Proof.
  intros H. unfold Re.match_len, pattern2. eval_literals.
  by rewrite needs_icon_open.
Qed.

Lemma spinner_needs_icon_open t :
  icon_open_at t = false → Re.match_len spinner_pattern t = None.
Proof.
  intros H. unfold Re.match_len, spinner_pattern. eval_literals.
  by rewrite needs_icon_open.
Qed.

Lemma findall_nowhere r P s :
  (∀ t, P t = false → Re.match_len r t = None) →
  any_suffix P s = false → findall r s = [].
Proof.
  intros Hr. unfold findall. induction s as [|c s IH]; cbn [any_suffix Scan.scan].
  - intros [H _]%orb_false_elim. by rewrite (Hr _ H).
  - intros [H Hs]%orb_false_elim. rewrite (Hr _ H). by apply IH.
Qed.

(** X1: a text in which [<i] is nowhere followed by a whitespace character
    is matched by no pattern of the script, and the rewriting returns it
    as it is with count 0.  So other elements ([<img>], [<input>], an [<i>]
    without attributes) and plain text are never touched. *)
Theorem no_icon_open_unchanged content :
  any_suffix icon_open_at content = false →
  no_pattern_matches content ∧ rewrite_content content = (content, 0%nat).
Proof.
  intros H.
  assert (no_pattern_matches content) as Hnone.
  { split.
    - apply Forall_forall. intros entry _. split.
      + eapply findall_nowhere, H. apply pattern1_needs_icon_open.
      + eapply findall_nowhere, H. apply pattern2_needs_icon_open.
    - eapply findall_nowhere, H. apply spinner_needs_icon_open. }
  split; [done | by apply rewrite_content_nothing_found].
Qed.

Lemma no_icon_open_unchanged_witness :
  any_suffix icon_open_at other_markup = false
  ∧ rewrite_content other_markup = (other_markup, 0%nat).
Proof.
  assert (any_suffix icon_open_at other_markup = false) as H
    by (vm_compute; reflexivity).
  split; [exact H|]. exact (proj2 (no_icon_open_unchanged other_markup H)).
Defined.

(** ** The count and the [<] characters *)

Lemma count_lt_app a b : count_lt (a ++ b) = (count_lt a + count_lt b)%nat.
Proof. unfold count_lt. by rewrite filter_app, length_app. Qed.

Lemma count_lt_drop n s : (count_lt (drop n s) ≤ count_lt s)%nat.
Proof.
  rewrite <- (take_drop n s) at 2. rewrite count_lt_app. lia.
Qed.

Lemma seq_lit_starts_with_lt rest :
  starts_with_lt (Re.Seq (Re.Lit [0x3C; 0x69]) rest).
Proof.
  intros t n. unfold Re.match_len. cbn [Re.mt].
  destruct (Re.strip_prefix [60; 105] t) as [t2|] eqn:E; [|done].
  assert (∃ t1, t = 60 :: t1 ∧ t2 `suffix_of` t1) as (t1 & -> & Ht2).
  { destruct t as [|a t]; cbn [Re.strip_prefix] in E; [done|].
    destruct (N.eqb_spec 60 a) as [<-|]; [|done].
    exists t. split; [done|]. exact (strip_prefix_suffix [105] _ _ E). }
  assert (length t2 < length t1)%nat as Hlen.
  { cbn [Re.strip_prefix] in E. rewrite N.eqb_refl in E.
    destruct t1 as [|b t1]; [done|]. destruct (105 =? b); [|done].
    injection E as ->. cbn. lia. }
  destruct (Re.mt rest t2 Some) as [x|] eqn:Hm; [|done].
  apply mt_suffix in Hm as (s' & Hs%suffix_length & [= ->]).
  intros [= <-]. cbn [length]. split; [lia | by eexists].
Qed.

Lemma pattern1_starts_with_lt fa_class : starts_with_lt (pattern1 fa_class).
Proof. unfold pattern1. eval_literals. apply seq_lit_starts_with_lt. Qed.

Lemma pattern2_starts_with_lt fa_class : starts_with_lt (pattern2 fa_class).
Proof. unfold pattern2. eval_literals. apply seq_lit_starts_with_lt. Qed.

Lemma spinner_starts_with_lt : starts_with_lt spinner_pattern.
Proof. unfold spinner_pattern. eval_literals. apply seq_lit_starts_with_lt. Qed.

(** Each match takes one [<] away, and a replacement without [<] adds
    none. *)
Lemma scan_count_lt r repl s skip :
  starts_with_lt r → count_lt repl = 0%nat →
  (count_lt (concat (Scan.replaced repl <$> Scan.scan r s skip))
   + length (omap Scan.matched (Scan.scan r s skip))
   ≤ count_lt (drop skip s))%nat.
Proof.
  intros Hr Hrepl. revert skip. induction s as [|c s IH]; intros skip.
  - destruct skip as [|skip]; cbn [Scan.scan]; [|cbn; lia].
    destruct (Re.match_len r []) as [n|] eqn:E; [|cbn; lia].
    by destruct (Hr _ _ E) as (_ & t' & ?).
  - destruct skip as [|skip]; cbn [Scan.scan drop].
    2:{ apply IH. }
    destruct (Re.match_len r (c :: s)) as [[|n]|] eqn:E.
    + destruct (Hr _ _ E) as (? & _). lia.
    + destruct (Hr _ _ E) as (_ & t' & [= -> ->]).
      specialize (IH n). pose proof (count_lt_drop n t').
      csimpl. rewrite count_lt_app, Hrepl.
      change (count_lt (60 :: t')) with (S (count_lt t')). lia.
    + specialize (IH 0%nat). rewrite drop_0 in IH. csimpl.
      change (c :: ?x) with ([c] ++ x). rewrite !count_lt_app. lia.
Qed.

Lemma sub_count_lt r repl s :
  starts_with_lt r → count_lt repl = 0%nat →
  (count_lt (sub r repl s) + length (findall r s) ≤ count_lt s)%nat.
Proof.
  intros Hr Hrepl. pose proof (scan_count_lt r repl s 0 Hr Hrepl) as H.
  by rewrite drop_0 in H.
Qed.

Lemma replace_icon_count_lt content changes entry :
  count_lt entry.2 = 0%nat →
  ((replace_icon (content, changes) entry).2
   + count_lt (replace_icon (content, changes) entry).1
   ≤ changes + count_lt content)%nat.
Proof.
  destruct entry as [fa_class emoji]. cbn [snd]. intros Hemoji.
  assert (count_lt (emoji ++ u " ") = 0%nat) as Hrepl
    by (by rewrite count_lt_app, Hemoji).
  unfold replace_icon.
  pose proof (sub_count_lt (pattern1 fa_class) (emoji ++ u " ") content
                (pattern1_starts_with_lt _) Hrepl) as H1.
  destruct (findall (pattern1 fa_class) content) as [|m1 ms1] eqn:E1.
  - pose proof (sub_count_lt (pattern2 fa_class) (emoji ++ u " ") content
                  (pattern2_starts_with_lt _) Hrepl) as H2.
    destruct (findall (pattern2 fa_class) content); cbn [fst snd] in *; lia.
  - pose proof (sub_count_lt (pattern2 fa_class) (emoji ++ u " ")
                  (sub (pattern1 fa_class) (emoji ++ u " ") content)
                  (pattern2_starts_with_lt _) Hrepl) as H2.
    destruct (findall (pattern2 fa_class) _); cbn [fst snd] in *; lia.
Qed.

Lemma foldl_replace_icon_count_lt table content changes :
  Forall (fun entry : str * str => count_lt entry.2 = 0%nat) table →
  ((foldl replace_icon (content, changes) table).2
   + count_lt (foldl replace_icon (content, changes) table).1
   ≤ changes + count_lt content)%nat.
Proof.
  intros H. revert content changes.
  induction H as [|entry table He _ IH]; intros content changes; [done|].
  cbn [foldl].
  pose proof (replace_icon_count_lt content changes entry He) as Hstep.
  destruct (replace_icon (content, changes) entry) as [c1 n1].
  specialize (IH c1 n1). cbn [fst snd] in Hstep. lia.
Qed.

Lemma ICON_MAP_emoji_without_lt :
  Forall (fun entry : str * str => count_lt entry.2 = 0%nat) ICON_MAP.
Proof. apply (bool_decide_unpack _). vm_compute. exact I. Qed.

(** The count of one table entry grows when, and only when, one of its
    patterns matches. *)
Lemma replace_icon_count_grows content changes entry :
  (changes ≤ (replace_icon (content, changes) entry).2)%nat
  ∧ ((replace_icon (content, changes) entry).2 = changes →
     (replace_icon (content, changes) entry).1 = content).
Proof.
  destruct entry as [fa_class emoji]. unfold replace_icon.
  destruct (findall (pattern1 fa_class) content) as [|m1 ms1];
    destruct (findall (pattern2 fa_class) _) as [|m2 ms2];
    cbn [fst snd length]; split; (lia || done).
Qed.

Lemma foldl_replace_icon_count_grows table content changes :
  (changes ≤ (foldl replace_icon (content, changes) table).2)%nat
  ∧ ((foldl replace_icon (content, changes) table).2 = changes →
     (foldl replace_icon (content, changes) table).1 = content).
Proof.
  revert content changes. induction table as [|entry table IH];
    intros content changes; [done|].
  cbn [foldl].
  destruct (replace_icon_count_grows content changes entry) as [Hle Heq].
  destruct (replace_icon (content, changes) entry) as [c1 n1].
  destruct (IH c1 n1) as [Hle' Heq']. cbn [fst snd] in *.
  split; [lia|]. intros H.
  assert (n1 = changes) as -> by lia. rewrite Heq' by done. by apply Heq.
Qed.

(** X3: the count is 0 exactly when the loop over the table leaves the
    text as it is.  A call that changes a file and still counts 0 has
    changed it by the special case alone. *)
Theorem count_zero_iff_table_idle content :
  ((replace_icons content).2 = 0%nat ↔ (replace_icons content).1 = content)
  ∧ ((rewrite_content content).2 = 0%nat →
     (rewrite_content content).1 = sub spinner_pattern spinner_glyph content).
Proof.
  assert ((replace_icons content).2 = 0%nat → (replace_icons content).1 = content)
    as Hidle by apply foldl_replace_icon_count_grows.
  split.
  - split; [exact Hidle|]. intros Hsame.
    pose proof (foldl_replace_icon_count_lt ICON_MAP content 0
                  ICON_MAP_emoji_without_lt) as Hloop.
    fold (replace_icons content) in Hloop. rewrite Hsame in Hloop. lia.
  - unfold rewrite_content. destruct (replace_icons content) as [c1 n1].
    cbn [fst snd] in *. intros ->. by rewrite Hidle.
Qed.

(** ** Which files are candidates *)

Lemma starts_with_prefix needle hay :
  starts_with needle hay = true → ∃ rest, hay = needle ++ rest.
Proof.
  revert hay. induction needle as [|c needle IH]; intros hay; [by exists hay|].
  destruct hay as [|d hay]; [done|]. cbn [starts_with].
  intros [->%N.eqb_eq [rest ->]%IH]%andb_prop. by exists rest.
Qed.

Lemma str_in_true_occurs needle hay : str_in needle hay = true → occurs_in needle hay.
Proof.
  induction hay as [|c hay IH]; cbn [str_in].
  - intros [rest H]%starts_with_prefix. by exists [], rest.
  - intros [[rest H]%starts_with_prefix|(before & after & ->)%IH]%orb_prop.
    + by exists [], rest.
    + by exists (c :: before), after.
Qed.

Lemma str_in_iff needle hay : str_in needle hay = true ↔ occurs_in needle hay.
Proof. split; [apply str_in_true_occurs | apply str_in_occurs]. Qed.

(** Membership in the candidate list, filter by filter. *)
Lemma candidates_characterised (base : path) (m : gmap path node) (p : path) :
  p ∈ candidates base m
  ↔ is_Some (m !! p)
    ∧ is_under base p = true
    ∧ ends_with (u ".ejs") (default [] (last p)) = true
    ∧ ¬ occurs_in (u "backup") (path_str p).
Proof.
  unfold candidates, rglob_ejs. rewrite !list_elem_of_filter.
  rewrite list_elem_of_fmap. rewrite <- str_in_iff.
  split.
  - intros (Hb & Hglob & [q n] & -> & Hq%elem_of_map_to_list).
    apply andb_prop_elim in Hglob as [Hu He].
    split; [by eexists|]. split; [by apply Is_true_eq_true|].
    split; [by apply Is_true_eq_true|].
    apply negb_prop_elim in Hb. intros H. apply Hb. by rewrite H.
  - intros ([n Hn] & Hu & He & Hb). split; [|split].
    + apply negb_prop_intro. by intros ?%Is_true_eq_true.
    + by rewrite Hu, He.
    + exists (p, n). split; [done | by apply elem_of_map_to_list].
Qed.

Lemma is_under_app (base p : path) :
  is_under base p = true → ∃ rest, p = base ++ rest.
Proof.
  revert p. induction base as [|b base IH]; intros p.
  - destruct p; [done | by eexists].
  - destruct p as [|s p]; [done|]. cbn [is_under].
    intros [->%bool_decide_eq_true [rest ->]%IH]%andb_prop. by exists rest.
Qed.

Lemma path_str_app (p q : path) :
  p ≠ [] → path_str (p ++ q) = path_str p ++ concat ((fun seg => u "/" ++ seg) <$> q).
Proof.
  destruct p as [|s p]; [done|]. intros _. unfold path_str.
  cbn [app]. rewrite !fmap_cons, fmap_app. cbn [concat].
  rewrite concat_app, <- !(assoc_L (++)). reflexivity.
Qed.

Lemma occurs_in_app_l needle a b : occurs_in needle a → occurs_in needle (a ++ b).
Proof.
  intros (before & after & ->). exists before, (after ++ b).
  by rewrite <- !(assoc_L (++)).
Qed.

Lemma backup_not_in_root : ¬ occurs_in (u "backup") (path_str []).
Proof.
  intros (before & after & H). apply (f_equal length) in H.
  rewrite !length_app in H.
  change (length (path_str [])) with 1%nat in H.
  change (length (u "backup")) with 6%nat in H. lia.
Qed.

(** X5: the exclusion looks at the whole path as text, not at its
    segments.  When the path of the script's own directory contains
    [backup], no file is a candidate, and [main] reports 0 files found, 0
    modified and 0 replaced, without opening a file. *)
Theorem backup_in_script_dir exn_text script_dir w :
  occurs_in (u "backup") (path_str script_dir) →
  candidates (script_dir ++ [u "views"]) (fs w) = []
  ∧ (is_Some (fs w !! (script_dir ++ [u "views"])) →
     main exn_text script_dir w
     = (Returned, World (fs w) (trace w ++ banner ++ [found_line 0] ++ summary 0 0))).
Proof.
  intros Hocc.
  assert (script_dir ≠ []) as Hne
    by (intros ->; by apply backup_not_in_root).
  assert (candidates (script_dir ++ [u "views"]) (fs w) = []) as Hnil.
  { apply elem_of_nil_inv. intros p Hp.
    apply candidates_characterised in Hp as (_ & Hu & _ & Hb). apply Hb.
    apply is_under_app in Hu as [rest ->].
    rewrite <- (assoc_L (++)), path_str_app by done. by apply occurs_in_app_l. }
  split; [exact Hnil|]. intros Hviews.
  rewrite main_with_views by done. unfold loop_start. rewrite Hnil.
  cbn. by rewrite <- !(assoc_L (++)).
Qed.

Lemma backup_in_script_dir_witness :
  occurs_in (u "backup") (path_str old_backup_dir)
  ∧ main plain_text old_backup_dir inside_backup
    = (Returned,
       World (fs inside_backup) (banner ++ [found_line 0] ++ summary 0 0)).
Proof.
  assert (occurs_in (u "backup") (path_str old_backup_dir)) as Hocc
    by (exists (u "/srv/old_"), []; vm_compute; reflexivity).
  split; [exact Hocc|].
  apply (proj2 (backup_in_script_dir plain_text old_backup_dir inside_backup Hocc)).
  eexists. vm_compute; reflexivity.
Defined.

(** ** What one call does to the world *)

Lemma same_shape_refl a : same_shape a a.
Proof. by destruct a as [[| |]|]. Qed.

Lemma read_text_file p m content : read_text p m = inr content → is_Some (m !! p).
Proof. unfold read_text. by destruct (m !! p). Qed.

Lemma write_text_shape p content m :
  is_Some (m !! p) →
  ∀ q, same_shape (m !! q)
         (match write_text p content m with
          | inl (_, m') => m'
          | inr m' => m'
          end !! q).
Proof.
  intros [n Hp] q. unfold write_text. rewrite Hp.
  destruct n as [data readable [|]| |data readable room];
    try apply same_shape_refl;
    destruct (Utf8.encode content); try destruct (_ <=? _)%nat;
    (destruct (decide (p = q)) as [<-|];
     [rewrite lookup_insert_eq, Hp; by split
     |rewrite lookup_insert_ne by done; apply same_shape_refl]).
Qed.

(** The events of one call: the file is opened for reading once, and
    every path keeps its shape. *)
Lemma replace_fontawesome_in_file_effects exn_text file_path w :
  ∃ new,
    trace (replace_fontawesome_in_file exn_text file_path w).2 = trace w ++ new
    ∧ reads new = [file_path]
    ∧ ∀ p, same_shape (fs w !! p)
             (fs (replace_fontawesome_in_file exn_text file_path w).2 !! p).
Proof.
  unfold replace_fontawesome_in_file. cbn [log fs trace].
  destruct (read_text file_path (fs w)) as [e|original_content] eqn:Hread.
  { eexists [_; _]. cbn [snd fs trace log]. rewrite <- (assoc_L (++)).
    split; [done|]. split; [done|]. intros p. apply same_shape_refl. }
  destruct (rewrite_content original_content) as [content changes].
  case_bool_decide.
  2:{ eexists [_]. cbn [snd fs trace]. split; [done|]. split; [done|].
      intros p. apply same_shape_refl. }
  apply read_text_file in Hread.
  pose proof (write_text_shape file_path content (fs w) Hread) as Hshape.
  destruct (write_text file_path content (fs w)) as [[e m]|m];
    cbn [snd fs trace log set_fs].
  - eexists [_; _; _]. rewrite <- !(assoc_L (++)). by split.
  - eexists [_; _]. rewrite <- !(assoc_L (++)). by split.
Qed.

Lemma same_shape_trans a b c : same_shape a b → same_shape b c → same_shape a c.
Proof.
  destruct a as [[? ? ?| |? ? ?]|], b as [[? ? ?| |? ? ?]|],
    c as [[? ? ?| |? ? ?]|]; cbn; try done;
    intros [-> ->] [-> ->]; done.
Qed.

Lemma reads_app a b : reads (a ++ b) = reads a ++ reads b.
Proof. unfold reads. apply omap_app. Qed.

(** The loop, when no path fails [relative_to]: every file of the list is
    opened for reading once, in the order of the list; every path keeps
    its shape; and the counters grow by at most one file per file of the
    list and by at least one replacement per file counted. *)
Lemma process_files_effects exn_text script_dir files st :
  Forall (fun p => is_Some (relative_to p script_dir)) files →
  ∃ new,
    trace (loop_world (process_files exn_text script_dir files st).2)
      = trace (loop_world st) ++ new
    ∧ reads new = files
    ∧ (∀ p, same_shape (fs (loop_world st) !! p)
              (fs (loop_world (process_files exn_text script_dir files st).2) !! p))
    ∧ (files_modified st
       ≤ files_modified (process_files exn_text script_dir files st).2
       ≤ files_modified st + length files)%nat
    ∧ (files_modified (process_files exn_text script_dir files st).2
       + total_changes st
       ≤ total_changes (process_files exn_text script_dir files st).2
         + files_modified st)%nat.
Proof.
  intros H. revert st.
  induction H as [|file_path rest [rel Hrel] _ IH]; intros st; cbn [process_files].
  { exists []. rewrite (right_id_L [] (++)). cbn [snd length].
    repeat split; try done; try lia. intros p. apply same_shape_refl. }
  rewrite Hrel.
  destruct (replace_fontawesome_in_file_effects exn_text file_path (loop_world st))
    as (new1 & Htrace & Hreads & Hshape).
  destruct (replace_fontawesome_in_file exn_text file_path (loop_world st))
    as [changes w1]. cbn [snd] in Htrace, Hshape.
  destruct (0 <? changes)%nat eqn:Hpos.
  - match goal with
    | |- context [process_files _ _ rest ?s] =>
        destruct (IH s) as (new2 & Ht2 & Hr2 & Hs2 & Hm2 & Hc2)
    end.
    apply Nat.ltb_lt in Hpos.
    cbn [loop_world files_modified total_changes log trace fs] in *.
    eexists (new1 ++ [_] ++ new2). rewrite Ht2, Htrace, <- !(assoc_L (++)).
    split; [done|]. split; [by rewrite !reads_app, Hreads, Hr2|].
    split; [intros p; eapply same_shape_trans; [apply Hshape | apply Hs2]|].
    cbn [length]. lia.
  - match goal with
    | |- context [process_files _ _ rest ?s] =>
        destruct (IH s) as (new2 & Ht2 & Hr2 & Hs2 & Hm2 & Hc2)
    end.
    cbn [loop_world files_modified total_changes] in *.
    eexists (new1 ++ new2). rewrite Ht2, Htrace, <- !(assoc_L (++)).
    split; [done|]. split; [by rewrite !reads_app, Hreads, Hr2|].
    split; [intros p; eapply same_shape_trans; [apply Hshape | apply Hs2]|].
    cbn [length]. lia.
Qed.

(** ** The order of the files *)

Section Lex.
Context {A : Type} (cmp : A → A → comparison).
Hypothesis cmp_eq : ∀ x y, cmp x y = Eq → x = y.
Hypothesis cmp_refl : ∀ x, cmp x x = Eq.
Hypothesis cmp_flip : ∀ x y, cmp y x = CompOpp (cmp x y).
Hypothesis cmp_lt_trans : ∀ x y z, cmp x y = Lt → cmp y z = Lt → cmp x z = Lt.

Lemma lex_cmp_eq a b : lex_cmp cmp a b = Eq → a = b.
Proof.
  revert b. induction a as [|x a IH]; intros [|y b]; cbn; try done.
  destruct (cmp x y) eqn:E; try done.
  intros ->%IH. by rewrite (cmp_eq _ _ E).
Qed.

Lemma lex_cmp_refl a : lex_cmp cmp a a = Eq.
Proof. induction a as [|x a IH]; cbn; [done|]. by rewrite cmp_refl. Qed.

Lemma lex_cmp_flip a b : lex_cmp cmp b a = CompOpp (lex_cmp cmp a b).
Proof.
  revert b. induction a as [|x a IH]; intros [|y b]; cbn; try done.
  rewrite (cmp_flip x y). destruct (cmp x y); cbn; [apply IH | done..].
Qed.

Lemma lex_cmp_lt_trans a b c :
  lex_cmp cmp a b = Lt → lex_cmp cmp b c = Lt → lex_cmp cmp a c = Lt.
Proof.
  revert b c. induction a as [|x a IH]; intros [|y b] [|z c]; cbn; try done.
  destruct (cmp x y) eqn:Exy; try done.
  - apply cmp_eq in Exy as ->. destruct (cmp y z); try done. apply IH.
  - intros _. destruct (cmp y z) eqn:Eyz; try done.
    + apply cmp_eq in Eyz as ->. by rewrite Exy.
    + by rewrite (cmp_lt_trans _ _ _ Exy Eyz).
Qed.
End Lex.

Lemma str_cmp_lex a b : str_cmp a b = lex_cmp N.compare a b.
Proof.
  revert b. induction a as [|x a IH]; intros [|y b]; cbn; try done.
  by rewrite IH.
Qed.

Lemma path_cmp_lex p q : path_cmp p q = lex_cmp str_cmp p q.
Proof.
  revert q. induction p as [|x p IH]; intros [|y q]; cbn; try done.
  by rewrite IH.
Qed.

Lemma str_cmp_eq a b : str_cmp a b = Eq → a = b.
Proof. rewrite str_cmp_lex. apply lex_cmp_eq, N.compare_eq. Qed.

Lemma str_cmp_refl a : str_cmp a a = Eq.
Proof. rewrite str_cmp_lex. apply lex_cmp_refl, N.compare_refl. Qed.

Lemma str_cmp_flip a b : str_cmp b a = CompOpp (str_cmp a b).
Proof.
  rewrite !str_cmp_lex. apply lex_cmp_flip. intros x y. apply N.compare_antisym.
Qed.

Lemma str_cmp_lt_trans a b c :
  str_cmp a b = Lt → str_cmp b c = Lt → str_cmp a c = Lt.
Proof.
  rewrite !str_cmp_lex. apply lex_cmp_lt_trans.
  - apply N.compare_eq.
  - intros x y z. rewrite !N.compare_lt_iff. lia.
Qed.

Lemma path_le_flip p q : path_cmp p q = Gt → path_le q p.
Proof.
  unfold path_le. rewrite !path_cmp_lex.
  rewrite (lex_cmp_flip str_cmp str_cmp_flip p q). by intros ->.
Qed.

Lemma path_le_trans p q r : path_le p q → path_le q r → path_le p r.
Proof.
  unfold path_le. rewrite !path_cmp_lex. intros Hpq Hqr.
  destruct (lex_cmp str_cmp p q) eqn:E1; [| |done].
  { by apply (lex_cmp_eq str_cmp str_cmp_eq) in E1 as ->. }
  destruct (lex_cmp str_cmp q r) eqn:E2; [| |done].
  { apply (lex_cmp_eq str_cmp str_cmp_eq) in E2 as ->. by rewrite E1. }
  by rewrite (lex_cmp_lt_trans str_cmp str_cmp_eq str_cmp_lt_trans _ _ _ E1 E2).
Qed.

Lemma insert_sorted_perm p l : insert_sorted p l ≡ₚ p :: l.
Proof.
  induction l as [|q l IH]; cbn [insert_sorted]; [done|].
  destruct (path_cmp p q); [done..|]. rewrite IH. apply Permutation_swap.
Qed.

Lemma sorted_perm l : sorted l ≡ₚ l.
Proof.
  unfold sorted. induction l as [|p l IH]; cbn [foldr]; [done|].
  by rewrite insert_sorted_perm, IH.
Qed.

Lemma insert_sorted_sorted p l :
  StronglySorted path_le l → StronglySorted path_le (insert_sorted p l).
Proof.
  induction 1 as [|q l Hl IH Hq]; cbn [insert_sorted].
  { repeat constructor. }
  destruct (path_cmp p q) eqn:E.
  - constructor; [by constructor|]. constructor; [unfold path_le; by rewrite E|].
    eapply Forall_impl; [exact Hq|]. intros r Hr.
    eapply path_le_trans; [|exact Hr]. unfold path_le. by rewrite E.
  - constructor; [by constructor|]. constructor; [unfold path_le; by rewrite E|].
    eapply Forall_impl; [exact Hq|]. intros r Hr.
    eapply path_le_trans; [|exact Hr]. unfold path_le. by rewrite E.
  - constructor; [exact IH|]. rewrite insert_sorted_perm.
    constructor; [by apply path_le_flip | exact Hq].
Qed.

Lemma sorted_sorted l : StronglySorted path_le (sorted l).
Proof.
  unfold sorted. induction l as [|p l IH]; cbn [foldr]; [constructor|].
  by apply insert_sorted_sorted.
Qed.

Lemma candidates_NoDup (base : path) (m : gmap path node) : NoDup (candidates base m).
Proof.
  unfold candidates, rglob_ejs. apply NoDup_filter, NoDup_filter.
  apply NoDup_fst_map_to_list.
Qed.

(** ** The run as a whole *)

(** X6: when the [views] directory exists, the paths that [main] opens for
    reading are the candidate files, each exactly once, in ascending order
    of their paths. *)
Theorem candidates_read_once_in_order exn_text script_dir w :
  is_Some (fs w !! (script_dir ++ [u "views"])) →
  ∃ new,
    trace (main exn_text script_dir w).2 = trace w ++ new
    ∧ reads new ≡ₚ candidates (script_dir ++ [u "views"]) (fs w)
    ∧ NoDup (reads new)
    ∧ StronglySorted path_le (reads new).
Proof.
  intros Hviews. rewrite main_with_views by done. cbn [snd fs trace].
  destruct (process_files_effects exn_text script_dir
              (sorted (candidates (script_dir ++ [u "views"]) (fs w)))
              (loop_start script_dir w)
              (sorted_candidates_relative script_dir (fs w)))
    as (new & Htrace & Hreads & _).
  eexists. rewrite Htrace. cbn [loop_start loop_world trace].
  rewrite <- !(assoc_L (++)). split; [done|].
  rewrite !reads_app, Hreads.
  change (reads banner) with (@nil path).
  change (reads [found_line _]) with (@nil path).
  change (reads (summary _ _)) with (@nil path).
  cbn [app]. rewrite (right_id_L [] (++)).
  split; [apply sorted_perm|].
  split; [rewrite sorted_perm; apply candidates_NoDup | apply sorted_sorted].
Qed.

(** X7: [main] changes nothing but the data of regular files: it creates
    no path and removes none, a directory stays a directory, and a file
    keeps its permissions. *)
Theorem main_keeps_shape exn_text script_dir w (p : path) :
  same_shape (fs w !! p) (fs (main exn_text script_dir w).2 !! p).
Proof.
  destruct (fs w !! (script_dir ++ [u "views"])) as [n|] eqn:Hviews.
  - rewrite main_with_views by (by rewrite Hviews). cbn [snd fs].
    destruct (process_files_effects exn_text script_dir
                (sorted (candidates (script_dir ++ [u "views"]) (fs w)))
                (loop_start script_dir w)
                (sorted_candidates_relative script_dir (fs w)))
      as (new & _ & _ & Hshape & _).
    apply Hshape.
  - rewrite main_without_views by done. apply same_shape_refl.
Qed.

(** X8: the summary is consistent: the number of files reported as
    modified is at most the number of candidate files and at most the
    total number of replacements. *)
Theorem summary_counters_consistent exn_text script_dir w :
  is_Some (fs w !! (script_dir ++ [u "views"])) →
  ∃ before modified total,
    trace (main exn_text script_dir w).2 = before ++ summary modified total
    ∧ (modified ≤ length (candidates (script_dir ++ [u "views"]) (fs w)))%nat
    ∧ (modified ≤ total)%nat.
Proof.
  intros Hviews. rewrite main_with_views by done. cbn [snd fs trace].
  destruct (process_files_effects exn_text script_dir
              (sorted (candidates (script_dir ++ [u "views"]) (fs w)))
              (loop_start script_dir w)
              (sorted_candidates_relative script_dir (fs w)))
    as (new & _ & _ & _ & Hm & Hc).
  eexists _, _, _. split; [done|].
  rewrite (Permutation_length (sorted_perm _)) in Hm.
  cbn [loop_start files_modified total_changes] in *. lia.
Qed.

(** X9: [main] opens and changes candidate files only: what the file
    system holds at any other path is left as it was, and no event of the
    run opens such a path. *)
Theorem non_candidates_untouched exn_text script_dir w (p : path) :
  p ∉ candidates (script_dir ++ [u "views"]) (fs w) →
  fs (main exn_text script_dir w).2 !! p = fs w !! p
  ∧ ∃ new, trace (main exn_text script_dir w).2 = trace w ++ new
           ∧ ∀ mode, Open p mode ∉ new.
Proof.
  intros Hnot.
  destruct (fs w !! (script_dir ++ [u "views"])) as [n|] eqn:Hviews.
  - rewrite main_with_views by (by rewrite Hviews). cbn [snd fs trace].
    destruct (process_files_frame exn_text script_dir
                (sorted (candidates (script_dir ++ [u "views"]) (fs w)))
                (loop_start script_dir w)) as (new & Htrace & Hopen & Hfs).
    assert (p ∉ sorted (candidates (script_dir ++ [u "views"]) (fs w))) as Hp
      by (by rewrite elem_of_sorted).
    split; [by rewrite Hfs|].
    eexists. rewrite Htrace. cbn [loop_start loop_world trace].
    rewrite <- !(assoc_L (++)). split; [done|].
    intros mode. rewrite !elem_of_app. unfold banner, found_line, summary.
    rewrite !elem_of_cons, !elem_of_nil.
    intros [H|[H|[H|H]]]; try (intuition discriminate).
    by apply Hopen in H.
  - rewrite main_without_views by done. cbn [snd fs trace].
    split; [done|]. eexists. split; [done|].
    intros mode. rewrite !elem_of_app. unfold banner.
    rewrite !elem_of_cons, !elem_of_nil. intuition discriminate.
Qed.

(** ** Reading back what was written *)

(** Linear arithmetic with division and remainder by constants. *)
Ltac dlia := zify; Z.to_euclidean_division_equations; lia.

Lemma lor_add a b n : b < 2 ^ n → N.lor (a * 2 ^ n) b = a * 2 ^ n + b.
Proof.
  intros Hb.
  assert (N.land (a * 2 ^ n) b = 0) as Hland.
  { apply N.bits_inj. intros m. rewrite N.land_spec, N.bits_0.
    destruct (N.lt_ge_cases m n) as [Hm|Hm].
    - by rewrite N.mul_pow2_bits_low.
    - rewrite <- (N.mod_small b (2 ^ n)) by done.
      rewrite N.mod_pow2_bits_high by done. apply andb_false_r. }
  rewrite <- N.lxor_lor by done. symmetry. by apply N.add_nocarry_lxor.
Qed.

Lemma low6_mod b : Utf8.low6 b = b mod 64.
Proof. unfold Utf8.low6. change 0x3F with (N.ones 6). apply N.land_ones. Qed.

Lemma land_1F b : N.land b 0x1F = b mod 32.
Proof. change 0x1F with (N.ones 5). apply N.land_ones. Qed.

Lemma land_0F b : N.land b 0x0F = b mod 16.
Proof. change 0x0F with (N.ones 4). apply N.land_ones. Qed.

Lemma land_07 b : N.land b 0x07 = b mod 8.
Proof. change 0x07 with (N.ones 3). apply N.land_ones. Qed.

Lemma shiftr_6 c : N.shiftr c 6 = c / 64.
Proof. apply N.shiftr_div_pow2. Qed.
Lemma shiftr_12 c : N.shiftr c 12 = c / 4096.
Proof. apply N.shiftr_div_pow2. Qed.
Lemma shiftr_18 c : N.shiftr c 18 = c / 262144.
Proof. apply N.shiftr_div_pow2. Qed.

Lemma lor_shiftl_6 x y : y < 64 → N.lor (N.shiftl x 6) y = x * 64 + y.
Proof. intros. rewrite N.shiftl_mul_pow2. by apply (lor_add x y 6). Qed.
Lemma lor_shiftl_12 x y : y < 4096 → N.lor (N.shiftl x 12) y = x * 4096 + y.
Proof. intros. rewrite N.shiftl_mul_pow2. by apply (lor_add x y 12). Qed.
Lemma lor_shiftl_18 x y : y < 262144 → N.lor (N.shiftl x 18) y = x * 262144 + y.
Proof. intros. rewrite N.shiftl_mul_pow2. by apply (lor_add x y 18). Qed.

Lemma lor_80 y : y < 64 → N.lor 0x80 y = 128 + y.
Proof. apply (lor_add 2 y 6). Qed.
Lemma lor_C0 y : y < 64 → N.lor 0xC0 y = 192 + y.
Proof. apply (lor_add 3 y 6). Qed.
Lemma lor_E0 y : y < 32 → N.lor 0xE0 y = 224 + y.
Proof. apply (lor_add 7 y 5). Qed.
Lemma lor_F0 y : y < 16 → N.lor 0xF0 y = 240 + y.
Proof. apply (lor_add 15 y 4). Qed.

Lemma to_N_to_byte n : n ≤ 255 → Byte.to_N (Utf8.to_byte n) = n.
Proof.
  intros Hn. unfold Utf8.to_byte. destruct (Byte.of_N n) as [b|] eqn:E; cbn.
  - by apply Byte.to_of_N.
  - apply Byte.of_N_None_iff in E. lia.
Qed.

Lemma decodeN_cons b0 r0 :
  Utf8.decodeN (b0 :: r0) =
      if b0 <? 0x80 then cons b0 <$> Utf8.decodeN r0
      else if Utf8.in_range 0xC2 0xDF b0 then
        match r0 with
        | b1 :: r1 =>
          if Utf8.is_cont b1
          then cons (N.lor (N.shiftl (N.land b0 0x1F) 6) (Utf8.low6 b1)) <$> Utf8.decodeN r1
          else None
        | _ => None
        end
      else if Utf8.in_range 0xE0 0xEF b0 then
        match r0 with
        | b1 :: b2 :: r2 =>
          if Utf8.in_range (if b0 =? 0xE0 then 0xA0 else 0x80)
                      (if b0 =? 0xED then 0x9F else 0xBF) b1 && Utf8.is_cont b2
          then cons (N.lor (N.shiftl (N.land b0 0x0F) 12)
                      (N.lor (N.shiftl (Utf8.low6 b1) 6) (Utf8.low6 b2))) <$> Utf8.decodeN r2
          else None
        | _ => None
        end
      else if Utf8.in_range 0xF0 0xF4 b0 then
        match r0 with
        | b1 :: b2 :: b3 :: r3 =>
          if Utf8.in_range (if b0 =? 0xF0 then 0x90 else 0x80)
                      (if b0 =? 0xF4 then 0x8F else 0xBF) b1
             && Utf8.is_cont b2 && Utf8.is_cont b3
          then cons (N.lor (N.shiftl (N.land b0 0x07) 18)
                      (N.lor (N.shiftl (Utf8.low6 b1) 12)
                        (N.lor (N.shiftl (Utf8.low6 b2) 6) (Utf8.low6 b3)))) <$> Utf8.decodeN r3
          else None
        | _ => None
        end
      else None.
Proof. reflexivity. Qed.

(** Boolean tests on numbers, as propositions. *)
Ltac tests_to_props H :=
  unfold Utf8.in_range, Utf8.is_cont in H;
  rewrite ?andb_true_iff, ?andb_false_iff, ?N.ltb_lt, ?N.ltb_ge,
    ?N.leb_le, ?N.leb_gt, ?N.eqb_eq, ?N.eqb_neq in H.

(** Settle the tests on numbers that the hypotheses decide. *)
Ltac settle1 :=
  match goal with
  | |- context [?a <? ?b] =>
      first [rewrite (proj2 (N.ltb_lt a b)) by lia
            |rewrite (proj2 (N.ltb_ge a b)) by lia]
  | |- context [?a <=? ?b] =>
      first [rewrite (proj2 (N.leb_le a b)) by lia
            |rewrite (proj2 (N.leb_gt a b)) by lia]
  | |- context [?a =? ?b] =>
      first [rewrite (proj2 (N.eqb_eq a b)) by lia
            |rewrite (proj2 (N.eqb_neq a b)) by lia]
  end.
Ltac settle := repeat settle1; cbn [andb].

Lemma split_6 c : ∃ x z, c / 64 = x ∧ c mod 64 = z ∧ c = x * 64 + z ∧ z < 64.
Proof. eexists _, _. split; [done|]. split; [done|]. dlia. Qed.

Lemma mod_64_80 z : z < 64 → (128 + z) mod 64 = z.
Proof. intros. dlia. Qed.
Lemma mod_32_C0 x : x < 32 → (192 + x) mod 32 = x.
Proof. intros. dlia. Qed.
Lemma mod_16_E0 x : x < 16 → (224 + x) mod 16 = x.
Proof. intros. dlia. Qed.
Lemma mod_8_F0 x : x < 8 → (240 + x) mod 8 = x.
Proof. intros. dlia. Qed.

Lemma encode1_decodeN c rest :
  is_scalar c →
  ∃ bs, Utf8.encode1 c = Some bs
        ∧ Utf8.decodeN ((Byte.to_N <$> bs) ++ rest) = cons c <$> Utf8.decodeN rest.
Proof.
  intros Hc. unfold Utf8.encode1.
  destruct (c <? 0x80) eqn:H1; tests_to_props H1.
  { eexists. split; [done|]. cbn [fmap list_fmap app].
    rewrite to_N_to_byte by lia. rewrite decodeN_cons.
    by rewrite (proj2 (N.ltb_lt _ _) H1). }
  destruct (c <? 0x800) eqn:H2; tests_to_props H2.
  { eexists. split; [done|]. cbn [fmap list_fmap app].
    rewrite shiftr_6, low6_mod.
    destruct (split_6 c) as (x & z & -> & -> & -> & Hz).
    rewrite lor_C0, lor_80, !to_N_to_byte by lia. rewrite decodeN_cons.
    unfold Utf8.in_range, Utf8.is_cont. settle.
    by rewrite land_1F, low6_mod, mod_32_C0, mod_64_80, lor_shiftl_6 by lia. }
  destruct (Utf8.in_range 0xD800 0xDFFF c) eqn:H3; tests_to_props H3.
  { unfold is_scalar in Hc. lia. }
  destruct (c <? 0x10000) eqn:H4; tests_to_props H4.
  { eexists. split; [done|]. cbn [fmap list_fmap app].
    rewrite shiftr_12, shiftr_6, !low6_mod.
    destruct (split_6 c) as (xy & z & -> & -> & -> & Hz).
    replace ((xy * 64 + z) / 4096) with (xy / 64) by dlia.
    destruct (split_6 xy) as (x & y & -> & -> & -> & Hy).
    rewrite lor_E0, !lor_80, !to_N_to_byte by lia. rewrite decodeN_cons.
    unfold Utf8.in_range, Utf8.is_cont.
    destruct (N.eqb_spec (224 + x) 224), (N.eqb_spec (224 + x) 237);
      try (exfalso; lia); settle;
      rewrite land_0F, !low6_mod, mod_16_E0, !mod_64_80, lor_shiftl_6, lor_shiftl_12
        by lia; do 2 f_equal; lia. }
  destruct (c <? 0x110000) eqn:H5; tests_to_props H5.
  2:{ unfold is_scalar in Hc. lia. }
  eexists. split; [done|]. cbn [fmap list_fmap app].
  rewrite shiftr_18, shiftr_12, shiftr_6, !low6_mod.
  destruct (split_6 c) as (wxy & z & -> & -> & -> & Hz).
  replace ((wxy * 64 + z) / 4096) with (wxy / 64) by dlia.
  replace ((wxy * 64 + z) / 262144) with (wxy / 4096) by dlia.
  destruct (split_6 wxy) as (wx & y & -> & -> & -> & Hy).
  replace ((wx * 64 + y) / 4096) with (wx / 64) by dlia.
  destruct (split_6 wx) as (w & x & -> & -> & -> & Hx).
  rewrite lor_F0, !lor_80, !to_N_to_byte by lia. rewrite decodeN_cons.
  unfold Utf8.in_range, Utf8.is_cont.
  destruct (N.eqb_spec (240 + w) 240), (N.eqb_spec (240 + w) 244);
    try (exfalso; lia); settle;
    rewrite land_07, !low6_mod, mod_8_F0, !mod_64_80,
      lor_shiftl_6, lor_shiftl_12, lor_shiftl_18 by lia;
    do 2 f_equal; lia.
Qed.

Lemma encode_decode s :
  Forall is_scalar s → ∃ bs, Utf8.encode s = Some bs ∧ Utf8.decode bs = Some s.
Proof.
  unfold Utf8.decode. induction 1 as [|c s Hc _ (rest & Henc & Hdec)].
  { by exists []. }
  destruct (encode1_decodeN c (Byte.to_N <$> rest) Hc) as (bs & H1 & H2).
  exists (bs ++ rest). cbn [Utf8.encode]. rewrite H1, Henc. split; [done|].
  by rewrite fmap_app, H2, Hdec.
Qed.

Lemma decodeN_scalar bs s : Utf8.decodeN bs = Some s → Forall is_scalar s.
Proof.
  remember (length bs) as n eqn:Hn. revert bs s Hn.
  induction n as [n IH] using lt_wf_ind. intros [|b0 r0] s Hn.
  { intros [= <-]. constructor. }
  rewrite decodeN_cons. cbn [length] in Hn.
  destruct (b0 <? 0x80) eqn:T1; tests_to_props T1.
  { destruct (Utf8.decodeN r0) as [s0|] eqn:E; [|done]. intros [= <-].
    constructor; [left; lia|]. eapply (IH (length r0)); [lia|done|exact E]. }
  destruct (Utf8.in_range 0xC2 0xDF b0) eqn:T2; tests_to_props T2.
  { destruct r0 as [|b1 r1]; [done|].
    destruct (Utf8.is_cont b1) eqn:T3; [|done]. tests_to_props T3.
    destruct (Utf8.decodeN r1) as [s1|] eqn:E; [|done]. intros [= <-].
    cbn [length] in Hn. constructor; [|eapply (IH (length r1)); [lia|done|exact E]].
    rewrite land_1F, low6_mod, lor_shiftl_6 by dlia. left. dlia. }
  destruct (Utf8.in_range 0xE0 0xEF b0) eqn:T3; tests_to_props T3.
  { destruct r0 as [|b1 [|b2 r2]]; [done..|].
    destruct (_ && _) eqn:T4; [|done].
    destruct (Utf8.decodeN r2) as [s2|] eqn:E; [|done]. intros [= <-].
    cbn [length] in Hn. constructor; [|eapply (IH (length r2)); [lia|done|exact E]].
    rewrite land_0F, !low6_mod, lor_shiftl_6, lor_shiftl_12 by dlia.
    unfold is_scalar.
    destruct (N.eqb_spec b0 0xE0), (N.eqb_spec b0 0xED); tests_to_props T4; dlia. }
  destruct (Utf8.in_range 0xF0 0xF4 b0) eqn:T4; tests_to_props T4; [|done].
  destruct r0 as [|b1 [|b2 [|b3 r3]]]; [done..|].
  destruct (_ && _) eqn:T5; [|done].
  destruct (Utf8.decodeN r3) as [s3|] eqn:E; [|done]. intros [= <-].
  cbn [length] in Hn. constructor; [|eapply (IH (length r3)); [lia|done|exact E]].
  rewrite land_07, !low6_mod, lor_shiftl_6, lor_shiftl_12, lor_shiftl_18 by dlia.
  unfold is_scalar.
  destruct (N.eqb_spec b0 0xF0), (N.eqb_spec b0 0xF4); tests_to_props T5; dlia.
Qed.

Lemma universal_newlines_clean s :
  Forall is_scalar s → Forall clean (universal_newlines s).
Proof.
  remember (length s) as n eqn:Hn. revert s Hn.
  induction n as [n IH] using lt_wf_ind. intros [|c r] Hn Hs; cbn [universal_newlines].
  { constructor. }
  cbn [length] in Hn. apply Forall_cons in Hs as [Hc Hr].
  destruct (N.eqb_spec c 13) as [->|Hne].
  - constructor; [split; [left; lia | lia]|].
    destruct r as [|c' r']; [constructor|]. cbn [length] in Hn.
    destruct (c' =? 10).
    + apply Forall_cons in Hr as [_ Hr']. eapply (IH (length r')); [lia|done..].
    + eapply (IH (S (length r'))); [lia|done..].
  - constructor; [done|]. eapply (IH (length r)); [lia|done..].
Qed.

Lemma universal_newlines_id s :
  Forall (fun c => c ≠ 0x0D) s → universal_newlines s = s.
Proof.
  induction 1 as [|c s Hc _ IH]; cbn [universal_newlines]; [done|].
  destruct (N.eqb_spec c 13); [done|]. by rewrite IH.
Qed.

Lemma scan_preserves (P : N → Prop) r repl s skip :
  Forall P s → Forall P repl →
  Forall P (concat (Scan.replaced repl <$> Scan.scan r s skip)).
Proof.
  intros Hs Hrepl. revert skip. induction Hs as [|c s Hc Hs IH]; intros skip.
  - destruct skip; cbn [Scan.scan]; [|constructor].
    destruct (Re.match_len r []); csimpl; [|constructor].
    by rewrite (right_id_L [] (++)).
  - destruct skip as [|skip]; cbn [Scan.scan]; [|apply IH].
    destruct (Re.match_len r (c :: s)) as [[|n]|]; csimpl.
    + apply Forall_app. split; [done|].
      destruct (Re.match_len_nonempty r (c :: s)) as [[|n]|]; csimpl;
        try (constructor; [done | apply IH]).
      apply Forall_app. split; [done | apply IH].
    + apply Forall_app. split; [done | apply IH].
    + constructor; [done | apply IH].
Qed.

Lemma sub_preserves (P : N → Prop) r repl s :
  Forall P s → Forall P repl → Forall P (sub r repl s).
Proof. apply scan_preserves. Qed.

Lemma replace_icon_preserves (P : N → Prop) content changes entry :
  Forall P content → Forall P (entry.2 ++ u " ") →
  Forall P (replace_icon (content, changes) entry).1.
Proof.
  destruct entry as [fa_class emoji]. cbn [snd]. intros Hc He.
  unfold replace_icon.
  destruct (findall (pattern1 fa_class) content);
    destruct (findall (pattern2 fa_class) _); cbn [fst];
    repeat apply sub_preserves; done.
Qed.

Lemma foldl_replace_icon_preserves (P : N → Prop) table content changes :
  Forall (fun entry : str * str => Forall P (entry.2 ++ u " ")) table →
  Forall P content →
  Forall P (foldl replace_icon (content, changes) table).1.
Proof.
  intros Ht. revert content changes.
  induction Ht as [|entry table He _ IH]; intros content changes Hc; [done|].
  cbn [foldl].
  pose proof (replace_icon_preserves P content changes entry Hc He) as Hstep.
  destruct (replace_icon (content, changes) entry) as [c1 n1]. by apply IH.
Qed.

Lemma ICON_MAP_clean :
  Forall (fun entry : str * str => Forall clean (entry.2 ++ u " ")) ICON_MAP
  ∧ Forall clean spinner_glyph.
Proof. split; apply (bool_decide_unpack _); vm_compute; exact I. Qed.

Lemma rewrite_content_clean content :
  Forall clean content → Forall clean (rewrite_content content).1.
Proof.
  intros Hc. unfold rewrite_content, replace_icons.
  pose proof (foldl_replace_icon_preserves clean ICON_MAP content 0
                (proj1 ICON_MAP_clean) Hc) as Hloop.
  destruct (foldl replace_icon (content, 0%nat) ICON_MAP) as [c1 n1].
  cbn [fst] in *. apply sub_preserves; [done | apply ICON_MAP_clean].
Qed.

Lemma read_text_clean p m content : read_text p m = inr content → Forall clean content.
Proof.
  unfold read_text.
  destruct (m !! p) as [[data [|] writable| |data [|] room]|]; try done;
    (destruct (Utf8.decode data) as [s|] eqn:E; [|done]); intros [= <-];
    by eapply universal_newlines_clean, decodeN_scalar.
Qed.

(** A call that changes a writable file whose device takes the data: the
    new text is encoded and written, and the file then reads as the new
    text. *)
Lemma successful_write exn_text file_path w original_content content changes data :
  read_text file_path (fs w) = inr original_content →
  fs w !! file_path = Some (File data true true) →
  rewrite_content original_content = (content, changes) →
  content ≠ original_content →
  ∃ data',
    replace_fontawesome_in_file exn_text file_path w
    = (changes,
       World (<[file_path := File data' true true]> (fs w))
         (trace w ++ [Open file_path ModeR; Open file_path ModeW]))
    ∧ Utf8.encode content = Some data'
    ∧ read_text file_path (<[file_path := File data' true true]> (fs w)) = inr content.
Proof.
  intros Hread Hfile Hrw Hne.
  assert (Forall clean content) as Hclean.
  { replace content with (rewrite_content original_content).1 by (by rewrite Hrw).
    eapply rewrite_content_clean, read_text_clean, Hread. }
  destruct (encode_decode content) as (data' & Henc & Hdec).
  { eapply Forall_impl; [exact Hclean|]. by intros c [? _]. }
  exists data'. split; [|split; [done|]].
  - unfold replace_fontawesome_in_file. cbn [log fs trace].
    rewrite Hread, Hrw, bool_decide_true by done. cbn [log fs trace].
    unfold write_text. rewrite Hfile, Henc. unfold set_fs, log. cbn [fs trace].
    by rewrite <- ?(assoc_L (++)).
  - unfold read_text. rewrite lookup_insert_eq, Hdec.
    rewrite universal_newlines_id; [done|].
    eapply Forall_impl; [exact Hclean|]. by intros c [_ ?].
Qed.

(** X10: when a call changes a readable and writable file whose device
    takes the data (a [File] node), no error arises on the way: the new
    text can always be encoded, the call returns the count of the
    rewriting, and a later read of the file yields exactly the new text. *)
Theorem written_text_reads_back exn_text file_path w
    original_content content changes data :
  read_text file_path (fs w) = inr original_content →
  fs w !! file_path = Some (File data true true) →
  rewrite_content original_content = (content, changes) →
  content ≠ original_content →
  (replace_fontawesome_in_file exn_text file_path w).1 = changes
  ∧ trace (replace_fontawesome_in_file exn_text file_path w).2
    = trace w ++ [Open file_path ModeR; Open file_path ModeW]
  ∧ read_text file_path (fs (replace_fontawesome_in_file exn_text file_path w).2)
    = inr content.
Proof.
  intros Hread Hfile Hrw Hne.
  destruct (successful_write exn_text file_path w _ _ _ _ Hread Hfile Hrw Hne)
    as (data' & -> & _ & Hback).
  done.
Qed.

Lemma written_text_reads_back_witness :
  (replace_fontawesome_in_file plain_text a_ejs (one_file trash_icon true true)).1
  = 1%nat
  ∧ read_text a_ejs
      (fs (replace_fontawesome_in_file plain_text a_ejs
             (one_file trash_icon true true)).2)
    = inr (u "🗑️ ").
Proof.
  assert (read_text a_ejs (fs (one_file trash_icon true true)) = inr trash_icon)
    as Hread by (vm_compute; reflexivity).
  assert (fs (one_file trash_icon true true) !! a_ejs
          = Some (File (bytes_of trash_icon) true true)) as Hfile
    by (vm_compute; reflexivity).
  assert (rewrite_content trash_icon = (u "🗑️ ", 1%nat)) as Hrw
    by (vm_compute; reflexivity).
  assert (u "🗑️ " ≠ trash_icon) as Hne
    by (intros H; vm_compute in H; discriminate H).
  pose proof (written_text_reads_back plain_text a_ejs _ _ _ _ _
                Hread Hfile Hrw Hne) as (H1 & _ & H3).
  split; [exact H1 | exact H3].
Defined.

(** X11: a second call on a file that the first call has rewritten, when
    the new text holds no [<i] followed by whitespace, reads the file,
    returns 0 and does not open it for writing. *)
Theorem second_call_idle exn_text file_path w
    original_content content changes data :
  read_text file_path (fs w) = inr original_content →
  fs w !! file_path = Some (File data true true) →
  rewrite_content original_content = (content, changes) →
  content ≠ original_content →
  any_suffix icon_open_at content = false →
  replace_fontawesome_in_file exn_text file_path
    (replace_fontawesome_in_file exn_text file_path w).2
  = (0%nat,
     World (fs (replace_fontawesome_in_file exn_text file_path w).2)
       (trace w ++ [Open file_path ModeR; Open file_path ModeW;
                    Open file_path ModeR])).
Proof.
  intros Hread Hfile Hrw Hne Hidle.
  destruct (successful_write exn_text file_path w _ _ _ _ Hread Hfile Hrw Hne)
    as (data' & -> & _ & Hback).
  cbn [snd]. unfold replace_fontawesome_in_file at 1. cbn [log fs trace].
  rewrite Hback.
  assert (rewrite_content content = (content, 0%nat)) as ->.
  { apply rewrite_content_nothing_found. split.
    - apply Forall_forall. intros entry _. split.
      + eapply findall_nowhere, Hidle. apply pattern1_needs_icon_open.
      + eapply findall_nowhere, Hidle. apply pattern2_needs_icon_open.
    - eapply findall_nowhere, Hidle. apply spinner_needs_icon_open. }
  rewrite bool_decide_false by (intros H; by apply H).
  unfold log. cbn [fs trace]. by rewrite <- ?(assoc_L (++)).
Qed.

Lemma second_call_idle_witness :
  (replace_fontawesome_in_file plain_text a_ejs
     (replace_fontawesome_in_file plain_text a_ejs
        (one_file trash_icon true true)).2).1 = 0%nat.
Proof.
  assert (read_text a_ejs (fs (one_file trash_icon true true)) = inr trash_icon)
    as Hread by (vm_compute; reflexivity).
  assert (fs (one_file trash_icon true true) !! a_ejs
          = Some (File (bytes_of trash_icon) true true)) as Hfile
    by (vm_compute; reflexivity).
  assert (rewrite_content trash_icon = (u "🗑️ ", 1%nat)) as Hrw
    by (vm_compute; reflexivity).
  assert (u "🗑️ " ≠ trash_icon) as Hne
    by (intros H; vm_compute in H; discriminate H).
  assert (any_suffix icon_open_at (u "🗑️ ") = false) as Hidle
    by (vm_compute; reflexivity).
  exact (f_equal fst (second_call_idle plain_text a_ejs _ _ _ _ _
                        Hread Hfile Hrw Hne Hidle)).
Defined.

(** X12: when the [views] directory exists and holds no candidate file,
    [main] announces 0 files, prints the summary with 0 files modified and
    0 icons replaced, opens nothing and leaves the file system as it
    was. *)
Theorem no_candidates_empty_summary exn_text script_dir w :
  is_Some (fs w !! (script_dir ++ [u "views"])) →
  candidates (script_dir ++ [u "views"]) (fs w) = [] →
  main exn_text script_dir w
  = (Returned, World (fs w) (trace w ++ banner ++ [found_line 0] ++ summary 0 0)).
Proof.
  intros Hviews Hnil. rewrite main_with_views by done.
  unfold loop_start. rewrite Hnil. cbn. by rewrite <- !(assoc_L (++)).
Qed.

Lemma no_candidates_empty_summary_witness :
  main plain_text app_dir no_templates
  = (Returned, World (fs no_templates) (banner ++ [found_line 0] ++ summary 0 0)).
Proof.
  apply (no_candidates_empty_summary plain_text app_dir no_templates).
  - eexists. vm_compute; reflexivity.
  - vm_compute; reflexivity.
Defined.

Lemma count_zero_iff_table_idle_witness :
  (rewrite_content spinner_with_id).1
  = sub spinner_pattern spinner_glyph spinner_with_id.
Proof.
  apply (proj2 (count_zero_iff_table_idle spinner_with_id)).
  vm_compute; reflexivity.
Defined.

Lemma candidates_read_once_in_order_witness :
  ∃ new,
    trace (main plain_text app_dir read_only_first).2
      = trace read_only_first ++ new
    ∧ reads new ≡ₚ candidates views_dir (fs read_only_first)
    ∧ NoDup (reads new)
    ∧ StronglySorted path_le (reads new).
Proof.
  apply (candidates_read_once_in_order plain_text app_dir read_only_first).
  eexists. vm_compute; reflexivity.
Defined.

Lemma summary_counters_consistent_witness :
  ∃ before modified total,
    trace (main plain_text app_dir read_only_first).2
      = before ++ summary modified total
    ∧ (modified ≤ length (candidates views_dir (fs read_only_first)))%nat
    ∧ (modified ≤ total)%nat.
Proof.
  apply (summary_counters_consistent plain_text app_dir read_only_first).
  eexists. vm_compute; reflexivity.
Defined.

Lemma non_candidates_untouched_witness :
  fs (main plain_text app_dir with_backup).2 !! views_dir
  = fs with_backup !! views_dir.
Proof.
  apply (non_candidates_untouched plain_text app_dir with_backup views_dir).
  apply (bool_decide_unpack _). vm_compute. exact I.
Defined.

(** * The matcher and the words of a pattern *)

Lemma strip_prefix_app l s s' : Re.strip_prefix l s = Some s' → s = l ++ s'.
Proof.
  revert s. induction l as [|a l IH]; intros s; cbn.
  - by intros [= ->].
  - destruct s as [|b s]; [done|]. destruct (N.eqb_spec a b) as [->|]; [|done].
    by intros ->%IH.
Qed.

Lemma star_sound cs s k x :
  Re.star cs s k = Some x →
  ∃ w s', s = w ++ s' ∧ Forall (fun c => Re.cin cs c = true) w ∧ k s' = Some x.
Proof.
  induction s as [|c s IH]; cbn.
  - intros H. by exists [], [].
  - destruct (Re.cin cs c) eqn:Hc; [|intros H; by exists [], (c :: s)].
    destruct (Re.star cs s k) as [y|] eqn:E.
    + intros [= ->]. destruct (IH eq_refl) as (w & s' & -> & Hw & Hk).
      exists (c :: w), s'. split; [done|]. split; [by constructor | done].
    + intros H. by exists [], (c :: s).
Qed.

(** Soundness of the matcher: what it consumes is a text of the pattern. *)
Lemma mt_sound r s k x :
  Re.mt r s k = Some x → ∃ w s', s = w ++ s' ∧ lang r w ∧ k s' = Some x.
Proof.
  revert s k x. induction r as [l|cs|cs|cs|r IH|r1 IH1 r2 IH2]; intros s k x;
    cbn [Re.mt lang].
  - destruct (Re.strip_prefix l s) as [s'|] eqn:E; [|done].
    intros H. exists l, s'. split; [by apply strip_prefix_app | done].
  - destruct s as [|c s]; [done|]. destruct (Re.cin cs c) eqn:Hc; [|done].
    intros H. exists [c], s. split; [done|]. split; [by exists c | done].
  - apply star_sound.
  - destruct s as [|c s]; [done|]. destruct (Re.cin cs c) eqn:Hc; [|done].
    intros (w & s' & -> & Hw & Hk)%star_sound. exists (c :: w), s'.
    split; [done|]. split; [|done]. split; [done | by constructor].
  - destruct (Re.mt r s k) as [y|] eqn:E.
    + intros [= ->]. destruct (IH _ _ _ E) as (w & s' & -> & Hw & Hk).
      exists w, s'. split; [done|]. split; [by right | done].
    + intros H. exists [], s. split; [done|]. split; [by left | done].
  - intros (w1 & s1 & -> & Hw1 & (w2 & s2 & -> & Hw2 & Hk)%IH2)%IH1.
    exists (w1 ++ w2), s2. rewrite <- (assoc_L (++)).
    split; [done|]. split; [by exists w1, w2 | done].
Qed.

Lemma match_len_sound r t n :
  Re.match_len r t = Some n → ∃ w x, t = w ++ x ∧ lang r w ∧ n = length w.
Proof.
  unfold Re.match_len. destruct (Re.mt r t Some) as [x|] eqn:E; [|done].
  apply mt_sound in E as (w & s' & -> & Hw & [= ->]). intros [= <-].
  exists w, x. split; [done|]. split; [done|]. rewrite length_app. lia.
Qed.

Lemma lang_min_lt r w : lang r w → (min_lt r ≤ count_lt w)%nat.
Proof.
  revert w. induction r as [l|cs|cs|cs|r IH|r1 IH1 r2 IH2]; intros w;
    cbn [lang min_lt]; try lia.
  - by intros ->.
  - intros (w1 & w2 & -> & H1%IH1 & H2%IH2). rewrite count_lt_app. lia.
Qed.

(** * The special case, in any context *)

Lemma is_space_not_gt c : Re.is_space c = true → c ≠ 0x3E.
Proof. by intros H ->. Qed.

(** A text of the special-case pattern holds its first [>] five
    characters before its end. *)
Lemma spinner_lang_shape w :
  lang spinner_pattern w →
  ∃ pre, w = pre ++ u "></i>" ∧ Forall (fun c => c ≠ 0x3E) pre.
Proof.
  unfold spinner_pattern, dq. eval_literals. cbn [lang].
  intros (w1 & ? & -> & -> & w2 & ? & -> & [_ H2] & w3 & ? & -> & -> &
          w4 & ? & -> & -> & w5 & ? & -> & -> & w6 & ? & -> & [_ H6] &
          w7 & ? & -> & -> & w8 & ? & -> & [_ H8] & w9 & ? & -> & -> &
          w10 & ? & -> & -> & w11 & ? & -> & H11 & ->).
  eexists. rewrite !(assoc_L (++)). split; [done|].
  rewrite !Forall_app. repeat split;
    try (apply (bool_decide_unpack _); vm_compute; exact I);
    try (eapply Forall_impl; [eassumption|]; intros c Hc; by apply is_space_not_gt).
  eapply Forall_impl; [exact H11|]. intros c Hc ->. done.
Qed.

Lemma first_occurrence_unique {A} (x : A) a b a' b' :
  a ++ x :: b = a' ++ x :: b' → x ∉ a → x ∉ a' → a = a'.
Proof.
  revert a'. induction a as [|y a IH]; intros [|y' a']; cbn.
  - done.
  - intros [= -> _] _ H. exfalso. apply H. left.
  - intros [= -> _] H _. exfalso. apply H. left.
  - intros [= -> Hrest] Ha Ha'. f_equal.
    apply IH; [done | by intros ?; apply Ha; right | by intros ?; apply Ha'; right].
Qed.

Lemma not_elem_of_Forall_ne (x : N) l : Forall (fun c => c ≠ x) l → x ∉ l.
Proof. rewrite Forall_forall. intros H Hx. by apply (H x Hx). Qed.

(** A match of the special case that starts before a spinner element and
    reaches into it ends exactly where the element ends. *)
Lemma spinner_match_ends_with_element t attrs after n :
  Forall (fun c => c ≠ 0x3E) attrs →
  Re.match_len spinner_pattern (t ++ (spinner_open ++ attrs ++ u "></i>") ++ after)
    = Some n →
  (length t < n)%nat →
  n = (length t + length (spinner_open ++ attrs ++ u "></i>"))%nat.
Proof.
  intros Hattrs (w & x & Heq & (pre & -> & Hpre)%spinner_lang_shape & ->)%match_len_sound
    Hlen.
  assert (Forall (fun c => c ≠ 0x3E) (spinner_open ++ attrs)) as HE1.
  { apply Forall_app. split; [|done].
    apply (bool_decide_unpack _). vm_compute. exact I. }
  rewrite <- !(assoc_L (++)) in Heq.
  apply app_eq_inv in Heq as [(k & -> & Hk)|(k & -> & Hk)].
  - (* the match has its [>] inside [t] *)
    exfalso. rewrite !length_app in Hlen.
    change (length (u "></i>")) with 5%nat in Hlen.
    revert Hk. unfold spinner_open, dq. eval_literals.
    destruct k as [|c0 [|c1 [|c2 [|c3 [|c4 k]]]]]; cbn [app length] in *;
      try lia; intros [=].
  - (* the [>] of the match is the first one of the element *)
    rewrite (assoc_L (++) spinner_open attrs) in Hk.
    change (u "></i>") with (62 :: [60; 47; 105; 62]) in Hk.
    rewrite <- !(assoc_L (++)) in Hk. cbn [app] in Hk.
    rewrite (assoc_L (++) spinner_open attrs) in Hk.
    apply Forall_app in Hpre as [_ Hk'].
    apply first_occurrence_unique in Hk;
      [|by apply not_elem_of_Forall_ne..].
    subst k. rewrite !length_app. cbn [length]. lia.
Qed.

Lemma scan_match_piece r m rest :
  m ≠ [] → Re.match_len r (m ++ rest) = Some (length m) →
  Scan.scan r (m ++ rest) 0 = Scan.Match m :: Scan.scan r rest 0.
Proof.
  destruct m as [|c m]; [done|]. intros _ Hm.
  cbn [app Scan.scan length] in *. rewrite Hm.
  change (c :: m ++ rest) with ((c :: m) ++ rest).
  rewrite take_app_length' by done. by rewrite scan_skip.
Qed.

(** Wherever a spinner element stands in the subject, the scan of the
    special case has a match that ends where the element ends and holds
    the whole element, and goes on after it as on the rest alone. *)
Lemma scan_reaches_element before attrs after skip :
  Forall (fun c => c ≠ 0x3E) attrs → (skip ≤ length before)%nat →
  ∃ pieces m,
    Scan.scan spinner_pattern
      (before ++ (spinner_open ++ attrs ++ u "></i>") ++ after) skip
    = pieces ++ Scan.Match m :: Scan.scan spinner_pattern after 0
    ∧ concat (piece_source <$> pieces) ++ m
      = drop skip before ++ (spinner_open ++ attrs ++ u "></i>")
    ∧ (spinner_open ++ attrs ++ u "></i>") `suffix_of` m.
Proof.
  intros Hattrs. revert skip. induction before as [|c b IH]; intros skip Hskip.
  { destruct skip; [|cbn in Hskip; lia]. exists [], (spinner_open ++ attrs ++ u "></i>").
    cbn [app drop fmap list_fmap concat].
    split; [|done]. apply scan_match_piece; [|by apply spinner_match_len].
    unfold spinner_open. eval_literals. done. }
  destruct skip as [|k].
  2:{ cbn [app Scan.scan drop]. apply IH. cbn in Hskip. lia. }
  cbn [app Scan.scan drop].
  destruct (Re.match_len spinner_pattern
              (c :: b ++ (spinner_open ++ attrs ++ u "></i>") ++ after))
    as [[|n]|] eqn:E.
  - destruct (spinner_starts_with_lt _ _ E) as [? _]. lia.
  - destruct (decide (S n ≤ length (c :: b))%nat) as [Hin|Hout].
    + destruct (IH n) as (pieces & m & Hscan & Hsrc & Hsuf); [cbn in Hin; lia|].
      eexists (Scan.Match _ :: pieces), m. rewrite Hscan.
      split; [done|]. split; [|done].
      cbn [fmap list_fmap concat piece_source].
      rewrite <- (assoc_L (++)), Hsrc.
      change (c :: b ++ ?x) with ((c :: b) ++ x).
      rewrite take_app_le by done. rewrite (assoc_L (++)). f_equal.
      cbn [take app]. f_equal. apply take_drop.
    + pose proof (spinner_match_ends_with_element (c :: b) attrs after (S n) Hattrs E
                    ltac:(lia)) as Hend.
      exists [], ((c :: b) ++ spinner_open ++ attrs ++ u "></i>").
      cbn [fmap list_fmap concat].
      split; [|split; [done | by apply suffix_app_r]].
      change (c :: b ++ ?x) with ((c :: b) ++ x) at 1.
      rewrite (assoc_L (++) (c :: b)), take_app_length' by (by rewrite length_app).
      cbn [app]. f_equal.
      assert (n = length (b ++ spinner_open ++ attrs ++ u "></i>")) as ->.
      { rewrite length_app. cbn [length] in Hend. lia. }
      rewrite (assoc_L (++) b). apply scan_skip.
  - destruct (IH 0%nat) as (pieces & m & Hscan & Hsrc & Hsuf); [lia|].
    exists (Scan.Keep c :: pieces), m. rewrite Hscan. split; [done|].
    split; [|done]. cbn [fmap list_fmap concat piece_source app].
    by rewrite Hsrc.
Qed.

Lemma icon_open_at_context t r' :
  t ≠ [] → any_suffix icon_open_at t = false →
  icon_open_at (t ++ 0x3C :: 0x69 :: r') = false.
Proof.
  destruct t as [|a [|b [|c t]]]; [done|..]; intros _; cbn [any_suffix app icon_open_at].
  - intros _. by rewrite andb_false_r.
  - intros _. change (Re.is_space 60) with false. by rewrite andb_false_r.
  - by intros [? _]%orb_false_elim.
Qed.

Lemma scan_keeps_without_icon_open before r' :
  any_suffix icon_open_at before = false →
  Scan.scan spinner_pattern (before ++ 0x3C :: 0x69 :: r') 0
  = (Scan.Keep <$> before) ++ Scan.scan spinner_pattern (0x3C :: 0x69 :: r') 0.
Proof.
  induction before as [|c b IH]; [done|]. intros H.
  pose proof (icon_open_at_context (c :: b) r' ltac:(done) H) as Hctx.
  cbn [any_suffix] in H. apply orb_false_elim in H as [_ Hb].
  cbn [app Scan.scan]. change (c :: b ++ ?x) with ((c :: b) ++ x).
  rewrite (spinner_needs_icon_open _ Hctx). csimpl. by rewrite IH.
Qed.

(** C3, as the script behaves: the special case works on the text the
    loop over the table leaves.  Wherever that text holds a spinner element
    (class exactly [fas fa-spinner fa-spin], then any attribute text
    without [>]), the scan of the special case has a match that ends where
    the element ends and holds all of it; the match is replaced by the
    glyph, and what follows the glyph is the rewriting of the text after
    the element, so no space is put after the glyph.  When no [<i] with a
    whitespace character after it stands before the element, that match is
    the element itself and the text before it is kept.  The bare spinner
    element does not reach the special case: the first pattern of
    [fa-spinner] has replaced it by then with the glyph and a space,
    counted once. *)
Theorem spinner_special_case content before attrs after changes :
  replace_icons content
    = (before ++ (spinner_open ++ attrs ++ u "></i>") ++ after, changes) →
  Forall (fun c => c ≠ 0x3E) attrs →
  (∃ pieces m,
     Scan.scan spinner_pattern
       (before ++ (spinner_open ++ attrs ++ u "></i>") ++ after) 0
     = pieces ++ Scan.Match m :: Scan.scan spinner_pattern after 0
     ∧ concat (piece_source <$> pieces) ++ m
       = before ++ (spinner_open ++ attrs ++ u "></i>")
     ∧ (spinner_open ++ attrs ++ u "></i>") `suffix_of` m
     ∧ rewrite_content content
       = (concat (Scan.replaced spinner_glyph <$> pieces) ++ spinner_glyph
          ++ sub spinner_pattern spinner_glyph after, changes))
  ∧ (any_suffix icon_open_at before = false →
     rewrite_content content
     = (before ++ spinner_glyph ++ sub spinner_pattern spinner_glyph after,
        changes))
  ∧ rewrite_content bare_spinner = (spinner_glyph ++ u " ", 1%nat).
Proof.
  intros Hloop Hattrs. split; [|split; [|vm_compute; reflexivity]].
  - destruct (scan_reaches_element before attrs after 0 Hattrs ltac:(lia))
      as (pieces & m & Hscan & Hsrc & Hsuf).
    exists pieces, m. rewrite drop_0 in Hsrc. split; [done|]. split; [done|].
    split; [done|]. unfold rewrite_content. rewrite Hloop. f_equal.
    unfold sub at 1. rewrite Hscan, fmap_app, concat_app. by csimpl.
  - intros Hbefore. unfold rewrite_content. rewrite Hloop. f_equal.
    unfold sub at 1.
    assert (∃ r', (spinner_open ++ attrs ++ u "></i>") ++ after = 60 :: 105 :: r')
      as [r' Hr'].
    { unfold spinner_open. eval_literals. cbn [app]. by eexists. }
    rewrite Hr', scan_keeps_without_icon_open, <- Hr' by done.
    rewrite scan_match_piece; [|unfold spinner_open; eval_literals; done
                               |by apply spinner_match_len].
    rewrite fmap_app, concat_app. csimpl. f_equal.
    clear. induction before as [|c b IH]; csimpl; [done | by rewrite IH].
Qed.

Lemma spinner_special_case_witness :
  rewrite_content spinner_in_paragraph = (u "<p>⏳</p>", 0%nat).
Proof.
  assert (replace_icons spinner_in_paragraph
          = (u "<p>" ++ (spinner_open ++ id_x ++ u "></i>") ++ u "</p>", 0%nat))
    as Hloop by (vm_compute; reflexivity).
  assert (Forall (fun c => c ≠ 0x3E) id_x) as Hattrs
    by (apply (bool_decide_unpack _); vm_compute; exact I).
  assert (any_suffix icon_open_at (u "<p>") = false) as Hbefore
    by (vm_compute; reflexivity).
  rewrite (proj1 (proj2 (spinner_special_case _ _ _ _ _ Hloop Hattrs)) Hbefore).
  vm_compute. reflexivity.
Defined.

(** * The count and the [<] characters, sharpened *)

Lemma min_lt_two_lt r : (2 ≤ min_lt r)%nat → two_lt r.
Proof.
  intros Hr t n (w & x & -> & Hw%lang_min_lt & ->)%match_len_sound.
  rewrite take_app_length. lia.
Qed.

Lemma pattern1_two_lt fa_class : two_lt (pattern1 fa_class).
Proof.
  apply min_lt_two_lt. unfold pattern1, icon_tail. cbn [min_lt].
  change (count_lt (u "<i")) with 1%nat. change (count_lt (u "></i>")) with 1%nat.
  lia.
Qed.

Lemma pattern2_two_lt fa_class : two_lt (pattern2 fa_class).
Proof.
  apply min_lt_two_lt. unfold pattern2, icon_tail. cbn [min_lt].
  change (count_lt (u "<i")) with 1%nat. change (count_lt (u "></i>")) with 1%nat.
  lia.
Qed.

Lemma spinner_two_lt : two_lt spinner_pattern.
Proof. apply min_lt_two_lt. vm_compute. lia. Qed.

(** Each match takes two [<] away, and a replacement without [<] adds
    none. *)
Lemma scan_count_two_lt r repl s skip :
  starts_with_lt r → two_lt r → count_lt repl = 0%nat →
  (count_lt (concat (Scan.replaced repl <$> Scan.scan r s skip))
   + 2 * length (omap Scan.matched (Scan.scan r s skip))
   ≤ count_lt (drop skip s))%nat.
Proof.
  intros Hr Htwo Hrepl. revert skip. induction s as [|c s IH]; intros skip.
  - destruct skip as [|skip]; cbn [Scan.scan]; [|cbn; lia].
    destruct (Re.match_len r []) as [n|] eqn:E; [|cbn; lia].
    by destruct (Hr _ _ E) as (_ & t' & ?).
  - destruct skip as [|skip]; cbn [Scan.scan drop].
    2:{ apply IH. }
    destruct (Re.match_len r (c :: s)) as [[|n]|] eqn:E.
    + destruct (Hr _ _ E) as (? & _). lia.
    + pose proof (Htwo _ _ E) as H2. specialize (IH n).
      assert (count_lt (c :: s)
              = (count_lt (take (S n) (c :: s)) + count_lt (drop n s))%nat) as ->.
      { rewrite <- count_lt_app. f_equal. symmetry. apply (take_drop (S n) (c :: s)). }
      csimpl. rewrite count_lt_app, Hrepl. cbn [take] in H2. lia.
    + specialize (IH 0%nat). rewrite drop_0 in IH. csimpl.
      change (c :: ?x) with ([c] ++ x). rewrite !count_lt_app. lia.
Qed.

Lemma sub_count_two_lt r repl s :
  starts_with_lt r → two_lt r → count_lt repl = 0%nat →
  (count_lt (sub r repl s) + 2 * length (findall r s) ≤ count_lt s)%nat.
Proof.
  intros Hr Htwo Hrepl. pose proof (scan_count_two_lt r repl s 0 Hr Htwo Hrepl) as H.
  by rewrite drop_0 in H.
Qed.

Lemma replace_icon_count_two_lt content changes entry :
  count_lt entry.2 = 0%nat →
  (2 * (replace_icon (content, changes) entry).2
   + count_lt (replace_icon (content, changes) entry).1
   ≤ 2 * changes + count_lt content)%nat.
Proof.
  destruct entry as [fa_class emoji]. cbn [snd]. intros Hemoji.
  assert (count_lt (emoji ++ u " ") = 0%nat) as Hrepl
    by (by rewrite count_lt_app, Hemoji).
  unfold replace_icon.
  pose proof (sub_count_two_lt (pattern1 fa_class) (emoji ++ u " ") content
                (pattern1_starts_with_lt _) (pattern1_two_lt _) Hrepl) as H1.
  destruct (findall (pattern1 fa_class) content) as [|m1 ms1] eqn:E1.
  - pose proof (sub_count_two_lt (pattern2 fa_class) (emoji ++ u " ") content
                  (pattern2_starts_with_lt _) (pattern2_two_lt _) Hrepl) as H2.
    destruct (findall (pattern2 fa_class) content); cbn [fst snd] in *; lia.
  - pose proof (sub_count_two_lt (pattern2 fa_class) (emoji ++ u " ")
                  (sub (pattern1 fa_class) (emoji ++ u " ") content)
                  (pattern2_starts_with_lt _) (pattern2_two_lt _) Hrepl) as H2.
    destruct (findall (pattern2 fa_class) _); cbn [fst snd] in *; lia.
Qed.

Lemma foldl_replace_icon_count_two_lt table content changes :
  Forall (fun entry : str * str => count_lt entry.2 = 0%nat) table →
  (2 * (foldl replace_icon (content, changes) table).2
   + count_lt (foldl replace_icon (content, changes) table).1
   ≤ 2 * changes + count_lt content)%nat.
Proof.
  intros H. revert content changes.
  induction H as [|entry table He _ IH]; intros content changes; [done|].
  cbn [foldl].
  pose proof (replace_icon_count_two_lt content changes entry He) as Hstep.
  destruct (replace_icon (content, changes) entry) as [c1 n1].
  specialize (IH c1 n1). cbn [fst snd] in Hstep. lia.
Qed.

(** X2: every counted substitution removes at least two [<] characters of
    its own from the text, the one that opens the element and the one of
    its closing tag, and the rewriting never adds a [<]: twice the count
    plus the [<] left in the new text is at most the [<] of the original.
    A text with [2 * k] characters [<] is counted at most [k]. *)
Theorem count_bounded_by_lt content :
  (2 * (rewrite_content content).2 + count_lt (rewrite_content content).1
   ≤ count_lt content)%nat.
Proof.
  unfold rewrite_content, replace_icons.
  pose proof (foldl_replace_icon_count_two_lt ICON_MAP content 0
                ICON_MAP_emoji_without_lt) as Hloop.
  destruct (foldl replace_icon (content, 0%nat) ICON_MAP) as [c1 n1].
  pose proof (sub_count_lt spinner_pattern spinner_glyph c1
                spinner_starts_with_lt eq_refl) as Hspin.
  cbn [fst snd] in *. lia.
Qed.

(** * The exclusion, segment by segment *)

Lemma occurs_in_trans a b c : occurs_in a b → occurs_in b c → occurs_in a c.
Proof.
  intros (b1 & b2 & ->) (c1 & c2 & ->). exists (c1 ++ b1), (b2 ++ c2).
  by rewrite <- !(assoc_L (++)).
Qed.

(** A text without [/] that occurs in the joined segments occurs in one of
    the segments. *)
Lemma occurs_in_segments needle (p : path) :
  needle ≠ [] → 0x2F ∉ needle →
  occurs_in needle (concat ((fun seg => u "/" ++ seg) <$> p)) →
  ∃ seg, seg ∈ p ∧ occurs_in needle seg.
Proof.
  intros Hne Hslash. induction p as [|seg p IH].
  { intros (before & after & H). destruct before, needle; done. }
  intros (before & after & H). symmetry in H. cbn [fmap list_fmap concat] in H.
  change (u "/" ++ seg) with (47 :: seg) in H. cbn [app] in H.
  destruct before as [|c before].
  { destruct needle as [|c needle]; [done|]. injection H as Hc _.
    exfalso. apply Hslash. rewrite Hc. left. }
  injection H as _ H.
  apply app_eq_inv in H as [(k & -> & Hk)|(k & -> & Hk)].
  - (* the occurrence lies after the segment *)
    destruct IH as (seg' & Hin & Hocc); [exists k, after; exact Hk|].
    exists seg'. split; [by right | done].
  - (* the occurrence starts in the segment *)
    apply app_eq_inv in Hk as [(j & -> & Hj)|(j & -> & Hj)].
    + destruct j as [|c' j].
      * exists (before ++ k). split; [left|]. exists before, [].
        by rewrite !(right_id_L [] (++)).
      * exfalso. apply Hslash.
        destruct p as [|seg' p]; [done|]. cbn [fmap list_fmap concat] in Hj.
        change (u "/" ++ seg') with (47 :: seg') in Hj. cbn [app] in Hj.
        injection Hj as Hc _. apply elem_of_app. right. rewrite <- Hc. left.
    + exists (before ++ needle ++ j). split; [left|]. by exists before, j.
Qed.

Lemma backup_in_path_str (p : path) :
  occurs_in (u "backup") (path_str p)
  ↔ ∃ seg, seg ∈ p ∧ occurs_in (u "backup") seg.
Proof.
  split.
  - destruct p as [|s p]; [by intros ?%backup_not_in_root|].
    apply occurs_in_segments; [done|].
    apply (bool_decide_unpack _). vm_compute. exact I.
  - intros (seg & Hin & Hocc). eapply occurs_in_trans; [exact Hocc|].
    by apply path_str_segment.
Qed.

(** X4: the exclusion works on the text of each segment: a path below
    [views] whose name ends in [.ejs] is a candidate exactly when none of
    its segments, directory names and file name alike, contains [backup];
    a segment need not be named [backup] to exclude the file. *)
Theorem candidates_by_segments (base : path) (m : gmap path node) (p : path) :
  p ∈ candidates base m
  ↔ is_Some (m !! p)
    ∧ is_under base p = true
    ∧ ends_with (u ".ejs") (default [] (last p)) = true
    ∧ ∀ seg, seg ∈ p → ¬ occurs_in (u "backup") seg.
Proof.
  rewrite candidates_characterised, backup_in_path_str.
  split; intros (H1 & H2 & H3 & H4); (split; [done|]; split; [done|]; split; [done|]).
  - intros seg Hin Hocc. apply H4. by exists seg.
  - intros (seg & Hin & Hocc). by apply (H4 seg).
Qed.

Lemma candidates_by_segments_witness :
  a_ejs ∈ candidates views_dir (fs with_backup)
  ∧ (backups_2024_ejs ∉ candidates views_dir (fs with_backup)).
Proof.
  split.
  - apply (proj2 (candidates_by_segments views_dir (fs with_backup) a_ejs)).
    split; [eexists; vm_compute; reflexivity|].
    split; [vm_compute; reflexivity|].
    split; [vm_compute; reflexivity|].
    intros seg Hin H%str_in_occurs. revert H.
    repeat (apply elem_of_cons in Hin as [->|Hin]; [by vm_compute|]).
    by apply elem_of_nil in Hin.
  - intros (_ & _ & _ & H)%candidates_by_segments.
    apply (H (u "backups_2024")).
    + apply (bool_decide_unpack _). vm_compute. exact I.
    + by exists [], (u "s_2024").
Defined.


(** * A device that refuses the data *)

(** X14: the write is not atomic.  When a call changes a file that the
    device takes only [room] bytes for, fewer than the new text needs, the
    file is opened for writing and so truncated, the write fails, the
    handler prints the error line and the call returns 0: the file is left
    with the first [room] bytes of the new text, the original content is
    lost, and the change is not counted. *)
Theorem write_refused_by_device exn_text file_path w
    original_content content changes data room :
  read_text file_path (fs w) = inr original_content →
  fs w !! file_path = Some (LimitedFile data true room) →
  rewrite_content original_content = (content, changes) →
  content ≠ original_content →
  ∃ bytes,
    Utf8.encode content = Some bytes
    ∧ ((room < length bytes)%nat →
       replace_fontawesome_in_file exn_text file_path w
       = (0%nat,
          World (<[file_path := LimitedFile (take room bytes) true room]> (fs w))
            (trace w
             ++ [Open file_path ModeR; Open file_path ModeW;
                 Stdout (error_line exn_text file_path (OSError file_path))]))).
Proof.
  intros Hread Hfile Hrw Hne.
  assert (Forall clean content) as Hclean.
  { replace content with (rewrite_content original_content).1 by (by rewrite Hrw).
    eapply rewrite_content_clean, read_text_clean, Hread. }
  destruct (encode_decode content) as (bytes & Henc & _).
  { eapply Forall_impl; [exact Hclean|]. by intros c [? _]. }
  exists bytes. split; [done|]. intros Hroom.
  unfold replace_fontawesome_in_file. cbn [log fs trace].
  rewrite Hread, Hrw, bool_decide_true by done. cbn [log fs trace].
  unfold write_text. rewrite Hfile, Henc.
  rewrite (proj2 (Nat.leb_gt _ _)) by done.
  unfold set_fs, log. cbn [fs trace]. by rewrite <- ?(assoc_L (++)).
Qed.

Lemma write_refused_by_device_witness :
  replace_fontawesome_in_file plain_text a_ejs on_full_device
  = (0%nat,
     World (<[a_ejs := LimitedFile [xf0; x9f; x97] true 3]> (fs on_full_device))
       [Open a_ejs ModeR; Open a_ejs ModeW;
        Stdout (error_line plain_text a_ejs (OSError a_ejs))]).
Proof.
  assert (read_text a_ejs (fs on_full_device) = inr trash_icon) as Hread
    by (vm_compute; reflexivity).
  assert (fs on_full_device !! a_ejs
          = Some (LimitedFile (bytes_of trash_icon) true 3)) as Hfile
    by (vm_compute; reflexivity).
  assert (rewrite_content trash_icon = (u "🗑️ ", 1%nat)) as Hrw
    by (vm_compute; reflexivity).
  assert (u "🗑️ " ≠ trash_icon) as Hne
    by (intros H; vm_compute in H; discriminate H).
  destruct (write_refused_by_device plain_text a_ejs _ _ _ _ _ _
              Hread Hfile Hrw Hne) as (bytes & Henc & Hcall).
  assert (bytes = [xf0; x9f; x97; x91; xef; xb8; x8f; x20]) as ->.
  { vm_compute in Henc. by injection Henc as <-. }
  apply Hcall. cbn. lia.
Defined.
